(** * UCFGuessr: seeded round sequencing, scoring and the round state machine

    A shallow embedding of [src/app/page.tsx] (and of its variant
    [unnamed/part_001] where the two differ):

    - [JsNum]: the fragment of JavaScript number semantics the seeded
      generator relies on (binary64 rounding of integers, ToInt32/ToUint32,
      the bit operators and [Math.imul]);
    - [mulberry32_call], [getShuffledLocations]: the generator and the
      Fisher-Yates loop, as pure functions;
    - [JsHeap]: the same code over an explicit store of array objects and
      closure cells, to speak about aliasing and hidden state;
    - [calculateScore]: the haversine score, over the real numbers, and
      [Binary64.calculateScore]: the same code on binary64 values;
    - [JsString], [loadPanoramaData]: the string operations and the loader of
      the CSV;
    - [Game]: the state of the [Home] component, its handlers and effects,
      and the two formatters of what it displays. *)

From Stdlib Require Import ZArith Lia Reals Lra String Ascii DecimalString.
From Stdlib Require Floats.
From stdpp Require Import base list.

Local Open Scope Z_scope.

(** ** JavaScript numbers that hold integers

    A JavaScript number is an IEEE-754 binary64 value.  Every number the
    generator touches is integer valued, so it is modelled by the integer it
    denotes; [toDouble] is the rounding (53-bit significand, ties to even)
    that [+] and [*] apply to the exact result.  Magnitudes of 2^1024 and
    above (infinities) are outside the model. *)
Module JsNum.

Definition two31 : Z := 2147483648.
Definition two32 : Z := 4294967296.
Definition two53 : Z := 9007199254740992.

Definition round53_nonneg (x : Z) : Z :=
  if x <? two53 then x
  else
    let e := Z.log2 x - 52 in
    let q := Z.shiftr x e in
    let r := x - Z.shiftl q e in
    let half := Z.shiftl 1 (e - 1) in
    let q' := if r <? half then q
              else if half <? r then q + 1
              else if Z.even q then q else q + 1 in
    Z.shiftl q' e.

Definition toDouble (x : Z) : Z := Z.sgn x * round53_nonneg (Z.abs x).

(** [x + y] and [x * y] on numbers. *)
Definition js_add (x y : Z) : Z := toDouble (x + y).
Definition js_mul (x y : Z) : Z := toDouble (x * y).

(** The abstract operations ToUint32 and ToInt32 on an integer value. *)
Definition ToUint32 (x : Z) : Z := x mod two32.
Definition ToInt32 (x : Z) : Z := (x + two31) mod two32 - two31.

(** [a ^ b], [a | b], [a >>> n] and [Math.imul(a, b)]. *)
Definition js_xor (a b : Z) : Z := Z.lxor (ToInt32 a) (ToInt32 b).
Definition js_or (a b : Z) : Z := Z.lor (ToInt32 a) (ToInt32 b).
Definition js_ushr (a n : Z) : Z := Z.shiftr (ToUint32 a) n.
Definition Math_imul (a b : Z) : Z := ToInt32 (ToInt32 a * ToInt32 b).

End JsNum.
Import JsNum.

(** ** The seeded generator

    [mulberry32(seed)] returns a closure over the variable [seed].  One call
    of the closure first stores [seed + 0x6D2B79F5] back into that variable
    (no [| 0]: the variable is an ordinary number that keeps growing), then
    mixes.  [mulberry32_mix] is the mixing of the advanced value; the closure
    returns [u / 4294967296] for the 32-bit [u] computed here, a quotient
    that is exact in binary64, so the model carries the numerator [u]. *)
Definition mulberry32_mix (seed : Z) : Z :=
  let t := seed in
  let t := Math_imul (js_xor t (js_ushr t 15)) (js_or t 1) in
  let t := js_xor t (js_add t (Math_imul (js_xor t (js_ushr t 7)) (js_or t 61))) in
  js_ushr (js_xor t (js_ushr t 14)) 0.

(** One call [random()]: the numerator returned and the new captured seed. *)
Definition mulberry32_call (seed : Z) : Z * Z :=
  let seed := js_add seed 0x6D2B79F5 in
  (mulberry32_mix seed, seed).

(** The captured variable after [n] calls. *)
Definition mulberry32_state (n : N) (seed : Z) : Z :=
  N.iter n (fun seed => snd (mulberry32_call seed)) seed.

(** [Math.floor(random() * (i + 1))] for a draw [u / 2^32]: the product is
    rounded to binary64 before the floor.  [i] is an array index, so [i + 1]
    is exact. *)
Definition draw_index (u : Z) (i : nat) : nat :=
  Z.to_nat (js_mul u (Z.of_nat i + 1) / two32).

(** ** The shuffle, as a pure function *)

(** [[shuffled[i], shuffled[j]] = [shuffled[j], shuffled[i]]]: both reads
    happen first, then index [i] and then index [j] are written.  Reading past
    the end would give [undefined]; the loop never does
    ([shuffle_loop_checked_total] below), so that branch leaves the array
    alone. *)
Definition swap {A : Type} (l : list A) (i j : nat) : list A :=
  match l !! i, l !! j with
  | Some x, Some y => <[j := x]> (<[i := y]> l)
  | _, _ => l
  end.

(** [for (let i = shuffled.length - 1; i > 0; i--) { ... }], with the
    captured seed threaded through. *)
Fixpoint shuffle_loop {A : Type} (i : nat) (seed : Z) (shuffled : list A)
  : list A * Z :=
  match i with
  | O => (shuffled, seed)
  | S i' =>
      let '(u, seed') := mulberry32_call seed in
      let j := draw_index u i in
      shuffle_loop i' seed' (swap shuffled i j)
  end.

Definition getShuffledLocations {A : Type} (locations : list A) (seed : Z)
  : list A :=
  fst (shuffle_loop (length locations - 1) seed locations).

(** The same loop with the reads made explicit: [None] as soon as an
    iteration would read [undefined]. *)
Definition swap_checked {A : Type} (l : list A) (i j : nat)
  : option (list A) :=
  match l !! i, l !! j with
  | Some x, Some y => Some (<[j := x]> (<[i := y]> l))
  | _, _ => None
  end.

Fixpoint shuffle_loop_checked {A : Type} (i : nat) (seed : Z)
    (shuffled : list A) : option (list A * Z) :=
  match i with
  | O => Some (shuffled, seed)
  | S i' =>
      let '(u, seed') := mulberry32_call seed in
      match swap_checked shuffled i (draw_index u i) with
      | Some shuffled' => shuffle_loop_checked i' seed' shuffled'
      | None => None
      end
  end.

(** ** The reference algorithm of the specification

    The generator on a 32-bit state with wrap-around arithmetic throughout,
    and the Fisher-Yates loop with index [i] descending from [length - 1] to
    [1] and [j = floor(random() * (i + 1))] taken exactly. *)
Module Reference.

Definition next (state : Z) : Z * Z :=
  let state := (state + 0x6D2B79F5) mod two32 in
  let z := state in
  let z := (Z.lxor z (Z.shiftr z 15) * Z.lor z 1) mod two32 in
  let z := Z.lxor z ((z + (Z.lxor z (Z.shiftr z 7) * Z.lor z 61) mod two32) mod two32) in
  (Z.lxor z (Z.shiftr z 14), state).

Definition state (n : N) (seed : Z) : Z :=
  N.iter n (fun state => snd (next state)) (seed mod two32).

Definition draw (u : Z) (i : nat) : nat :=
  Z.to_nat (u * (Z.of_nat i + 1) / two32).

Fixpoint fisher_yates {A : Type} (i : nat) (state : Z) (l : list A) : list A :=
  match i with
  | O => l
  | S i' =>
      let '(u, state') := next state in
      fisher_yates i' state' (swap l i (draw u i))
  end.

Definition shuffle {A : Type} (l : list A) (seed : Z) : list A :=
  fisher_yates (length l - 1) (seed mod two32) l.

End Reference.

(** ** The same code over an explicit store

    Arrays are objects and the generator is a closure over a mutable
    variable.  A store holds the array objects and the closure variables
    allocated so far; a reference is an index into it. *)
Module JsHeap.

Record heap (A : Type) : Type := Heap {
  arrays : list (list A);
  cells : list Z
}.
Arguments Heap {A} _ _.
Arguments arrays {A} _.
Arguments cells {A} _.

Definition M (A R : Type) : Type := heap A -> R * heap A.

Definition ret {A R : Type} (r : R) : M A R := fun h => (r, h).
Definition bind {A R R' : Type} (m : M A R) (k : R -> M A R') : M A R' :=
  fun h => let '(r, h') := m h in k r h'.

Declare Scope js_scope.
Delimit Scope js_scope with js.
Notation "x <- m ;; k" := (bind m (fun x => k))
  (at level 100, m at next level, right associativity) : js_scope.
Notation "m ;;; k" := (bind m (fun _ => k))
  (at level 100, right associativity) : js_scope.
Local Open Scope js_scope.

(** Closure variables. *)
Definition new_cell {A : Type} (v : Z) : M A nat :=
  fun h => (length (cells h), Heap (arrays h) (cells h ++ [v])).
Definition read_cell {A : Type} (c : nat) : M A Z :=
  fun h => (default 0 (cells h !! c), h).
Definition write_cell {A : Type} (c : nat) (v : Z) : M A unit :=
  fun h => (tt, Heap (arrays h) (<[c := v]> (cells h))).

(** Array objects. *)
Definition new_array {A : Type} (l : list A) : M A nat :=
  fun h => (length (arrays h), Heap (arrays h ++ [l]) (cells h)).
Definition read_array {A : Type} (r : nat) : M A (list A) :=
  fun h => (default [] (arrays h !! r), h).
Definition array_get {A : Type} (r i : nat) : M A (option A) :=
  fun h => (default [] (arrays h !! r) !! i, h).
Definition array_set {A : Type} (r i : nat) (v : A) : M A unit :=
  fun h =>
    (tt, Heap (<[r := <[i := v]> (default [] (arrays h !! r))]> (arrays h))
              (cells h)).
Definition array_length {A : Type} (r : nat) : M A nat :=
  fun h => (length (default [] (arrays h !! r)), h).

(** [mulberry32(seed)]: allocates the captured variable; the closure is
    identified with that variable. *)
Definition mulberry32 {A : Type} (seed : Z) : M A nat := new_cell seed.

(** A call of the closure [g]. *)
Definition random {A : Type} (g : nat) : M A Z :=
  seed <- read_cell g ;;
  let seed := js_add seed 0x6D2B79F5 in
  write_cell g seed ;;;
  ret (mulberry32_mix seed).

(** [[a[i], a[j]] = [a[j], a[i]]] on the array object [r]. *)
Definition swap_elements {A : Type} (r i j : nat) : M A unit :=
  xi <- array_get r i ;;
  xj <- array_get r j ;;
  match xi, xj with
  | Some x, Some y => array_set r i y ;;; array_set r j x
  | _, _ => ret tt
  end.

Fixpoint shuffle_loop {A : Type} (random_ shuffled : nat) (i : nat) : M A unit :=
  match i with
  | O => ret tt
  | S i' =>
      u <- random random_ ;;
      swap_elements shuffled i (draw_index u i) ;;;
      shuffle_loop random_ shuffled i'
  end.

(** [getShuffledLocations(locations, seed)], [locations] being a reference;
    [[...locations]] allocates the copy that is shuffled and returned. *)
Definition getShuffledLocations {A : Type} (locations : nat) (seed : Z)
  : M A nat :=
  random_ <- mulberry32 seed ;;
  l <- read_array locations ;;
  shuffled <- new_array l ;;
  n <- array_length shuffled ;;
  shuffle_loop random_ shuffled (n - 1) ;;;
  ret shuffled.

(** [shuffled.slice(0, 5)]: a new array object. *)
Definition slice_0_5 {A : Type} (r : nat) : M A nat :=
  l <- read_array r ;;
  new_array (take 5 l).

(** The round-sequence derivation: shuffle, then the first five. *)
Definition buildRounds {A : Type} (locations : nat) (seed : Z) : M A nat :=
  shuffled <- getShuffledLocations locations seed ;;
  slice_0_5 shuffled.

(** The array a computation returned, read from the store it left. *)
Definition result {A : Type} (x : nat * heap A) : option (list A) :=
  arrays (snd x) !! fst x.

End JsHeap.

(** ** Distance and score

    [calculateScore] works on binary64 numbers with [Math.sin], [Math.exp]
    and the like, whose results ECMAScript leaves to the implementation.  It
    is read here over the real numbers, which is the reading under which its
    distance-decay form can be stated at all.  For latitudes between -90 and
    90 degrees the haversine term [a] lies in [0, 1], where [sqrt] is the
    real square root. *)
Module Scoring.
Local Open Scope R_scope.

Definition toRadians (deg : R) : R := deg * (PI / 180).

(** [Math.atan2(y, x)]. *)
Definition Math_atan2 (y x : R) : R :=
  if Rlt_dec 0 x then atan (y / x)
  else if Rlt_dec x 0 then
    if Rle_dec 0 y then atan (y / x) + PI else atan (y / x) - PI
  else if Rlt_dec 0 y then PI / 2
  else if Rlt_dec y 0 then - (PI / 2)
  else 0.

Definition Math_floor (x : R) : Z := Zfloor x.

(** [calculateScore] of [src/app/page.tsx]. *)
Definition calculateScore (actualPos guessedPos : R * R) : Z * R :=
  let R_ := 3958.8 in
  let lat1 := fst actualPos in
  let lon1 := snd actualPos in
  let lat2 := fst guessedPos in
  let lon2 := snd guessedPos in
  let dLat := toRadians (lat2 - lat1) in
  let dLon := toRadians (lon2 - lon1) in
  let a :=
    sin (dLat / 2) * sin (dLat / 2) +
    cos (toRadians lat1) * cos (toRadians lat2) *
    sin (dLon / 2) * sin (dLon / 2) in
  let c := 2 * Math_atan2 (sqrt a) (sqrt (1 - a)) in
  let distance := R_ * c in
  let score := Math_floor (5000 * exp (- distance / 0.9)) in
  let distanceInMeters := distance * 1609.34 in
  (Z.max 0 score, distanceInMeters).

(** [calculateScore] of the variant [unnamed/part_001]. *)
Definition calculateScore_part_001 (actualPos guessedPos : R * R) : Z * R :=
  let R_ := 500 in
  let lat1 := fst actualPos in
  let lon1 := snd actualPos in
  let lat2 := fst guessedPos in
  let lon2 := snd guessedPos in
  let dLat := toRadians (lat2 - lat1) in
  let dLon := toRadians (lon2 - lon1) in
  let a :=
    sin (dLat / 2) * sin (dLat / 2) +
    cos (toRadians lat1) * cos (toRadians lat2) *
    sin (dLon / 2) * sin (dLon / 2) in
  let c := 2 * Math_atan2 (sqrt a) (sqrt (1 - a)) in
  let distance := R_ * c in
  let distanceInMeters := distance * 1609.34 in
  let campusSize := 0.5 in
  let score := Math_floor (5000 * exp (-10 * distance / campusSize)) in
  (Z.max 0 score, distanceInMeters).

(** The functional form the specification fixes, over its constants. *)
Record constants : Type := Constants {
  radius : R;
  metersPerMile : R;
  maxPoints : R;
  k : R;
  scale : R
}.

Definition haversine (radius : R) (p q : R * R) : R :=
  let dLat := toRadians (fst q - fst p) in
  let dLon := toRadians (snd q - snd p) in
  let a :=
    sin (dLat / 2) * sin (dLat / 2) +
    cos (toRadians (fst p)) * cos (toRadians (fst q)) *
    sin (dLon / 2) * sin (dLon / 2) in
  radius * (2 * Math_atan2 (sqrt a) (sqrt (1 - a))).

Definition decay (cs : constants) (distance : R) : Z :=
  Z.max 0 (Zfloor (maxPoints cs * exp (- (k cs * distance / scale cs)))).

Definition score_form (cs : constants) (actual guess : R * R) : Z * R :=
  let distance := haversine (radius cs) actual guess in
  (decay cs distance, distance * metersPerMile cs).

Definition page_constants : constants := Constants 3958.8 1609.34 5000 1 0.9.
Definition part_001_constants : constants := Constants 500 1609.34 5000 10 0.5.

(** The second distance [makeGuess] computes: degrees scaled by 111000. *)
Definition roughMeters (actualPosition guessPosition : R * R) : R :=
  let latDiff := Rabs (fst actualPosition - fst guessPosition) in
  let lngDiff := Rabs (snd actualPosition - snd guessPosition) in
  sqrt (latDiff * latDiff + lngDiff * lngDiff) * 111000.

End Scoring.

(** ** The score in binary64

    [calculateScore] once more, on the numbers the code computes with:
    binary64 values, with NaN, the infinities and the rounding of every
    operation ([PrimFloat]).  [Math.sqrt], [Math.floor] and [Math.max] are
    exact; of [Math.sin], [Math.cos], [Math.atan2] and [Math.exp] the language
    fixes the results at NaN, zeros and infinities only and leaves the rest to
    the engine: [Libm] holds that rest. *)
Module Binary64.
Import PrimFloat SpecFloat FloatOps.
#[local] Set Warnings "-inexact-float".
Local Open Scope float_scope.

Record Libm : Type := MkLibm {
  sin_approx : float -> float;
  cos_approx : float -> float;
  atan2_approx : float -> float -> float;
  exp_approx : float -> float
}.

Definition Math_PI : float := 0x1.921fb54442d18p+1.

Definition Math_sin (M : Libm) (x : float) : float :=
  if is_nan x || is_zero x then x
  else if is_infinity x then nan
  else sin_approx M x.

Definition Math_cos (M : Libm) (x : float) : float :=
  if is_nan x || is_infinity x then nan
  else if is_zero x then 1
  else cos_approx M x.

Definition Math_exp (M : Libm) (x : float) : float :=
  if is_nan x then x
  else if is_zero x then 1
  else if is_infinity x then (if get_sign x then 0 else x)
  else exp_approx M x.

Definition Math_atan2 (M : Libm) (y x : float) : float :=
  if is_nan y || is_nan x then nan
  else if is_zero y && ((0 <? x) || (is_zero x && negb (get_sign x))) then y
  else if is_finite y && negb (is_zero y) && is_infinity x
          && negb (get_sign x)
       then (if get_sign y then -0 else 0)
  else atan2_approx M y x.

Definition Math_sqrt (x : float) : float := sqrt x.

(** The largest integral value not above [x]. *)
Definition Math_floor (x : float) : float :=
  match Prim2SF x with
  | S754_finite s m e =>
      if (0 <=? e)%Z then x
      else SF2Prim (binary_normalize prec emax
                      (cond_Zopp s (Zpos m) / 2 ^ (- e))%Z 0 false)
  | _ => x
  end.

(** [Math.max] of two values: NaN if either is NaN, and +0 above -0. *)
Definition Math_max (a b : float) : float :=
  if is_nan a || is_nan b then nan
  else if a <? b then b
  else if b <? a then a
  else if get_sign a then b else a.

Definition toRadians (deg : float) : float := deg * (Math_PI / 180).

(** The guess [makeGuess] falls back on when nothing is selected. *)
Definition fallbackPosition : float * float := (28.6024, -81.2001).

(** The haversine term [a] of [calculateScore]. *)
Definition haversineTerm (M : Libm) (actualPos guessedPos : float * float)
    : float :=
  let lat1 := fst actualPos in
  let lon1 := snd actualPos in
  let lat2 := fst guessedPos in
  let lon2 := snd guessedPos in
  let dLat := toRadians (lat2 - lat1) in
  let dLon := toRadians (lon2 - lon1) in
  Math_sin M (dLat / 2) * Math_sin M (dLat / 2)
  + Math_cos M (toRadians lat1) * Math_cos M (toRadians lat2)
    * Math_sin M (dLon / 2) * Math_sin M (dLon / 2).

Definition calculateScore (M : Libm) (actualPos guessedPos : float * float)
    : float * float :=
  let R := 3958.8 in
  let a := haversineTerm M actualPos guessedPos in
  let c := 2 * Math_atan2 M (Math_sqrt a) (Math_sqrt (1 - a)) in
  let distance := R * c in
  let score := Math_floor (5000 * Math_exp M (- distance / 0.9)) in
  let distanceInMeters := distance * 1609.34 in
  (Math_max 0 score, distanceInMeters).

End Binary64.

(** ** The [Home] component

    The state is the component's [useState] cells that the game logic reads
    or writes, the countdown interval behind [timerRef], and the alerts shown
    so far.  A callback created in a render closes over that render's values;
    [closure] keeps the four that [makeGuess] reads. *)
Module PanoramaLocation.
Record t : Type := Make {
  id : string;
  name : string;
  image : string;
  coordinates : R * R
}.
End PanoramaLocation.

Module RoundResult.
Record t : Type := Make {
  round : nat;
  location : string;
  actualPosition : R * R;
  guessPosition : R * R;
  score : Z;
  distance : R
}.
End RoundResult.

(** ** Strings

    The string operations the loader and the two formatters use.  A string
    is a sequence of code units below 256 (the CSV and every text the game
    prints are ASCII); [ToString] is the conversion a template literal
    applies to an integer-valued number of magnitude below 10^21, its decimal
    digits. *)
Module JsString.

Definition ToString (n : Z) : string := NilEmpty.string_of_int (Z.to_int n).

Definition digit (n : Z) : ascii := ascii_of_nat (48 + Z.to_nat n).

Definition newline : ascii := "010"%char.

(** [s.split(sep)] for a separator of one character. *)
Fixpoint split (sep : ascii) (s : string) : list string :=
  match s with
  | EmptyString => [EmptyString]
  | String c s' =>
      if Ascii.eqb c sep then EmptyString :: split sep s'
      else match split sep s' with
           | w :: ws => String c w :: ws
           | [] => [String c EmptyString]
           end
  end.

(** White space and line terminators below 256: TAB, LF, VT, FF, CR, SP and
    NBSP. *)
Definition isWhiteSpace (c : ascii) : bool :=
  let n := nat_of_ascii c in
  ((9 <=? n)%nat && (n <=? 13)%nat) || (n =? 32)%nat || (n =? 160)%nat.

Fixpoint trimStart (s : string) : string :=
  match s with
  | EmptyString => EmptyString
  | String c s' => if isWhiteSpace c then trimStart s' else s
  end.

Fixpoint trimEnd (s : string) : string :=
  match s with
  | EmptyString => EmptyString
  | String c s' =>
      match trimEnd s' with
      | EmptyString => if isWhiteSpace c then EmptyString
                       else String c EmptyString
      | t => String c t
      end
  end.

Definition trim (s : string) : string := trimEnd (trimStart s).

(** [Math.round]: the nearest integer, a tie going up. *)
Definition Math_round (x : R) : Z := Zfloor (x + / 2).

(** [x.toFixed(2)] for a magnitude below 10^21: the nearest multiple of
    1/100, a tie going away from zero, printed with two decimals. *)
Definition toFixed_2 (x : R) : string :=
  let n := Zfloor (Rabs x * 100 + / 2) in
  ((if Rlt_dec x 0 then "-" else "")
   ++ ToString (n / 100) ++ "."
   ++ String (digit (n mod 100 / 10)) (String (digit (n mod 10)) ""))%string.

End JsString.

(** ** Loading the panoramas

    [loadPanoramaData] over the outcome of the fetch: [None] when [fetch] or
    [text()] rejects, else the text of the CSV.  Both that rejection and the
    TypeError of [lines[0].split] on a text without a line are caught by the
    function's [try], which then returns the empty list.  [parseFloat] is a
    parameter: the number read from a field ([None] for a field the row does
    not have). *)
Import JsString.

(** The filter of the lines: [line => line.trim() !== ''] *)
Definition nonBlank (line : string) : bool :=
  negb (String.eqb (trim line) "").

Section Loader.
Variable parseFloat : option string -> R.

Definition loadPanoramaData (response : option string)
    : list PanoramaLocation.t :=
  match response with
  | None => []
  | Some csvText =>
      let lines := List.filter nonBlank (split newline csvText) in
      match lines with
      | [] => []
      | _ :: rows =>
          imap (fun index line =>
                  let values := split "," line in
                  let panoId := hd EmptyString values in
                  let lat := parseFloat (values !! 1%nat) in
                  let lng := parseFloat (values !! 2%nat) in
                  PanoramaLocation.Make
                    panoId
                    ("UCF Location " ++ ToString (Z.of_nat index + 1))%string
                    ("/ucf_panos/" ++ panoId ++ ".jpg")%string
                    (lat, lng))
               rows
      end
  end.

End Loader.

Module Home.
Import Scoring.

Record closure : Type := Closure {
  c_selectedPosition : option (R * R);
  c_gamePhase : string;
  c_currentLocation : option PanoramaLocation.t;
  c_round : nat
}.

Record state : Type := State {
  score : Z;
  round : nat;
  loading : bool;
  gamePhase : string;
  selectedPosition : option (R * R);
  seed : option Z;
  gameLocations : list PanoramaLocation.t;
  locations : list PanoramaLocation.t;
  currentLocation : option PanoramaLocation.t;
  roundScore : Z;
  timeLeft : Z;
  showResults : bool;
  gameOver : bool;
  roundResults : list RoundResult.t;
  (** the running interval, with the [makeGuess] its callback closed over *)
  timer : option closure;
  (** whether the last run of the round effect returned a cleanup *)
  roundEffectCleanup : bool;
  alerts : list string
}.

(** The [useState] initialisers. *)
Definition initialState : state :=
  State 0 1 true "exploring" None None [] [] None 0 300 false false [] None
        false [].

Definition setScore (f : Z -> Z) (s : state) : state :=
  State (f (score s)) (round s) (loading s) (gamePhase s) (selectedPosition s)
    (seed s) (gameLocations s) (locations s) (currentLocation s) (roundScore s)
    (timeLeft s) (showResults s) (gameOver s) (roundResults s) (timer s)
    (roundEffectCleanup s) (alerts s).
Definition setRound (f : nat -> nat) (s : state) : state :=
  State (score s) (f (round s)) (loading s) (gamePhase s) (selectedPosition s)
    (seed s) (gameLocations s) (locations s) (currentLocation s) (roundScore s)
    (timeLeft s) (showResults s) (gameOver s) (roundResults s) (timer s)
    (roundEffectCleanup s) (alerts s).
Definition setLoading (v : bool) (s : state) : state :=
  State (score s) (round s) v (gamePhase s) (selectedPosition s)
    (seed s) (gameLocations s) (locations s) (currentLocation s) (roundScore s)
    (timeLeft s) (showResults s) (gameOver s) (roundResults s) (timer s)
    (roundEffectCleanup s) (alerts s).
Definition setGamePhase (v : string) (s : state) : state :=
  State (score s) (round s) (loading s) v (selectedPosition s)
    (seed s) (gameLocations s) (locations s) (currentLocation s) (roundScore s)
    (timeLeft s) (showResults s) (gameOver s) (roundResults s) (timer s)
    (roundEffectCleanup s) (alerts s).
Definition setSelectedPosition (v : option (R * R)) (s : state) : state :=
  State (score s) (round s) (loading s) (gamePhase s) v
    (seed s) (gameLocations s) (locations s) (currentLocation s) (roundScore s)
    (timeLeft s) (showResults s) (gameOver s) (roundResults s) (timer s)
    (roundEffectCleanup s) (alerts s).
Definition setSeed (v : option Z) (s : state) : state :=
  State (score s) (round s) (loading s) (gamePhase s) (selectedPosition s)
    v (gameLocations s) (locations s) (currentLocation s) (roundScore s)
    (timeLeft s) (showResults s) (gameOver s) (roundResults s) (timer s)
    (roundEffectCleanup s) (alerts s).
Definition setGameLocations (v : list PanoramaLocation.t) (s : state) : state :=
  State (score s) (round s) (loading s) (gamePhase s) (selectedPosition s)
    (seed s) v (locations s) (currentLocation s) (roundScore s)
    (timeLeft s) (showResults s) (gameOver s) (roundResults s) (timer s)
    (roundEffectCleanup s) (alerts s).
Definition setLocations (v : list PanoramaLocation.t) (s : state) : state :=
  State (score s) (round s) (loading s) (gamePhase s) (selectedPosition s)
    (seed s) (gameLocations s) v (currentLocation s) (roundScore s)
    (timeLeft s) (showResults s) (gameOver s) (roundResults s) (timer s)
    (roundEffectCleanup s) (alerts s).
Definition setCurrentLocation (v : option PanoramaLocation.t) (s : state)
  : state :=
  State (score s) (round s) (loading s) (gamePhase s) (selectedPosition s)
    (seed s) (gameLocations s) (locations s) v (roundScore s)
    (timeLeft s) (showResults s) (gameOver s) (roundResults s) (timer s)
    (roundEffectCleanup s) (alerts s).
Definition setRoundScore (v : Z) (s : state) : state :=
  State (score s) (round s) (loading s) (gamePhase s) (selectedPosition s)
    (seed s) (gameLocations s) (locations s) (currentLocation s) v
    (timeLeft s) (showResults s) (gameOver s) (roundResults s) (timer s)
    (roundEffectCleanup s) (alerts s).
Definition setTimeLeft (f : Z -> Z) (s : state) : state :=
  State (score s) (round s) (loading s) (gamePhase s) (selectedPosition s)
    (seed s) (gameLocations s) (locations s) (currentLocation s) (roundScore s)
    (f (timeLeft s)) (showResults s) (gameOver s) (roundResults s) (timer s)
    (roundEffectCleanup s) (alerts s).
Definition setShowResults (v : bool) (s : state) : state :=
  State (score s) (round s) (loading s) (gamePhase s) (selectedPosition s)
    (seed s) (gameLocations s) (locations s) (currentLocation s) (roundScore s)
    (timeLeft s) v (gameOver s) (roundResults s) (timer s)
    (roundEffectCleanup s) (alerts s).
Definition setGameOver (v : bool) (s : state) : state :=
  State (score s) (round s) (loading s) (gamePhase s) (selectedPosition s)
    (seed s) (gameLocations s) (locations s) (currentLocation s) (roundScore s)
    (timeLeft s) (showResults s) v (roundResults s) (timer s)
    (roundEffectCleanup s) (alerts s).
Definition setRoundResults (f : list RoundResult.t -> list RoundResult.t)
  (s : state) : state :=
  State (score s) (round s) (loading s) (gamePhase s) (selectedPosition s)
    (seed s) (gameLocations s) (locations s) (currentLocation s) (roundScore s)
    (timeLeft s) (showResults s) (gameOver s) (f (roundResults s)) (timer s)
    (roundEffectCleanup s) (alerts s).
(** [timerRef.current = setInterval(...)] and [clearInterval(timerRef.current)]. *)
Definition setTimer (v : option closure) (s : state) : state :=
  State (score s) (round s) (loading s) (gamePhase s) (selectedPosition s)
    (seed s) (gameLocations s) (locations s) (currentLocation s) (roundScore s)
    (timeLeft s) (showResults s) (gameOver s) (roundResults s) v
    (roundEffectCleanup s) (alerts s).
Definition setRoundEffectCleanup (v : bool) (s : state) : state :=
  State (score s) (round s) (loading s) (gamePhase s) (selectedPosition s)
    (seed s) (gameLocations s) (locations s) (currentLocation s) (roundScore s)
    (timeLeft s) (showResults s) (gameOver s) (roundResults s) (timer s)
    v (alerts s).
(** [alert(msg)]. *)
Definition alert (msg : string) (s : state) : state :=
  State (score s) (round s) (loading s) (gamePhase s) (selectedPosition s)
    (seed s) (gameLocations s) (locations s) (currentLocation s) (roundScore s)
    (timeLeft s) (showResults s) (gameOver s) (roundResults s) (timer s)
    (roundEffectCleanup s) (alerts s ++ [msg]).

Definition clearInterval (s : state) : state := setTimer None s.

(** The values a callback created while rendering [s] closes over. *)
Definition capture (s : state) : closure :=
  Closure (selectedPosition s) (gamePhase s) (currentLocation s) (round s).

(** The effect on [[seed, locations]]. *)
Definition gameLocationsEffect (s : state) : state :=
  match seed s with
  | Some seed_ =>
      if (0 <? length (locations s))%nat then
        let shuffled := getShuffledLocations (locations s) seed_ in
        setGameLocations (take 5 shuffled) s
      else s
  | None => s
  end.

(** [makeGuess], as created in a render with values [c], run on state [s]. *)
Definition makeGuess (c : closure) (s : state) : state :=
  if negb (bool_decide (is_Some (c_selectedPosition c)))
     && String.eqb (c_gamePhase c) "guessing"
  then alert "Please select a location on the map first!" s
  else
    let s := clearInterval s in
    match c_currentLocation c with
    | None => s
    | Some currentLocation_ =>
        let actualPosition := PanoramaLocation.coordinates currentLocation_ in
        let guessPosition :=
          default (28.6024, -81.2001)%R (c_selectedPosition c) in
        let '(points, distanceInMeters) :=
          calculateScore actualPosition guessPosition in
        let s := setRoundScore points s in
        let s := setScore (fun prevScore => prevScore + points) s in
        let latDiff := Rabs (fst actualPosition - fst guessPosition) in
        let lngDiff := Rabs (snd actualPosition - snd guessPosition) in
        let distance :=
          (sqrt (latDiff * latDiff + lngDiff * lngDiff) * 111000)%R in
        let s :=
          setRoundResults
            (fun prev =>
               prev ++ [RoundResult.Make (c_round c)
                          (PanoramaLocation.name currentLocation_)
                          actualPosition guessPosition points distance]) s in
        setShowResults true s
    end.

(** One firing of the interval callback, whose [makeGuess] has values [c]. *)
Definition tick (c : closure) (s : state) : state :=
  if timeLeft s <=? 1 then
    setTimeLeft (fun _ => 0) (makeGuess c (clearInterval s))
  else setTimeLeft (fun prev => prev - 1) s.

(** The effect on [[round, gameLocations.length]]: the cleanup the previous
    run returned, then the body.  [round] is never below 1 ([inv_round]), so
    [round - 1] is an index. *)
Definition roundInitEffect (s : state) : state :=
  let c := capture s in
  let s := if roundEffectCleanup s then clearInterval s else s in
  if (length (gameLocations s) =? 0)%nat then setRoundEffectCleanup false s
  else
    let s :=
      if (round s <=? 5)%nat then
        let s := setGamePhase "exploring" s in
        let s := setSelectedPosition None s in
        let s := setRoundScore 0 s in
        let s := setShowResults false s in
        let s := setTimeLeft (fun _ => 300) s in
        let s := setCurrentLocation (gameLocations s !! (round s - 1)%nat) s in
        let s := clearInterval s in
        setTimer (Some c) s
      else setGameOver true s in
    setRoundEffectCleanup true s.

Definition nextRound (s : state) : state :=
  if (round s <? 5)%nat then setRound (fun prev => S prev) s
  else setGameOver true s.

(** [restartGame]; [randomIndex] is [Math.floor(Math.random() *
    locations.length)]. *)
Definition restartGame (randomIndex : nat) (s : state) : state :=
  let c := capture s in
  let s := setRound (fun _ => 1%nat) s in
  let s := setScore (fun _ => 0) s in
  let s := setGamePhase "exploring" s in
  let s := setSelectedPosition None s in
  let s := setRoundScore 0 s in
  let s := setTimeLeft (fun _ => 300) s in
  let s := setShowResults false s in
  let s := setGameOver false s in
  let s := setRoundResults (fun _ => []) s in
  let s :=
    if (0 <? length (locations s))%nat
    then setCurrentLocation (locations s !! randomIndex) s else s in
  let s := clearInterval s in
  setTimer (Some c) s.

(** [handleMapClick] as created in a render where [showResults] had the
    value [showResults_]. *)
Definition handleMapClick (showResults_ : bool) (position : R * R) (s : state)
  : state :=
  if negb showResults_ then setSelectedPosition (Some position) s else s.

(** The [keydown] listener, for the Space key. *)
Definition handleKeyDown_Space (s : state) : state :=
  if bool_decide (is_Some (selectedPosition s)) && negb (showResults s)
  then makeGuess (capture s) s else s.

(** What the render shows: the game-over screen replaces everything; the map
    and the buttons need [!loading]; Confirm shows while [!showResults] and
    is disabled without a selection; Next shows with the results. *)
Definition mainShown (s : state) : bool := negb (gameOver s) && negb (loading s).
Definition confirmEnabled (s : state) : bool :=
  mainShown s && negb (showResults s)
  && bool_decide (is_Some (selectedPosition s)).
Definition nextShown (s : state) : bool := mainShown s && showResults s.

(** ** Events

    What can happen to a mounted component.  [MapClick] carries the
    [showResults] value of the [handleMapClick] the map service holds, which
    may come from an earlier render. *)
Inductive event : Type :=
| SeedResolved (gameSeed : Z)
| DataLoaded (panoLocations : list PanoramaLocation.t)
| MapClick (showResults_ : bool) (position : R * R)
| ConfirmClick
| SpaceKey
| Tick
| NextRoundClick
| PlayAgainClick (randomIndex : nat).

(** The handler of an event; an event whose control is not rendered, whose
    promise has already resolved or whose interval is not running does
    nothing. *)
Definition handle (e : event) (s : state) : state :=
  match e with
  | SeedResolved gameSeed =>
      match seed s with None => setSeed (Some gameSeed) s | Some _ => s end
  | DataLoaded panoLocations =>
      if loading s then setLoading false (setLocations panoLocations s) else s
  | MapClick showResults_ position =>
      if mainShown s then handleMapClick showResults_ position s else s
  | ConfirmClick =>
      if confirmEnabled s then makeGuess (capture s) s else s
  | SpaceKey => handleKeyDown_Space s
  | Tick =>
      match timer s with Some c => tick c s | None => s end
  | NextRoundClick => if nextShown s then nextRound s else s
  | PlayAgainClick randomIndex =>
      if gameOver s then restartGame randomIndex s else s
  end.

(** Whether the event gives the effect on [[seed, locations]] a changed
    dependency: a seed where there was none, or a new locations array. *)
Definition changesSeedOrLocations (e : event) (s : state) : bool :=
  match e with
  | SeedResolved _ => negb (bool_decide (is_Some (seed s)))
  | DataLoaded _ => loading s
  | _ => false
  end.

(** The renders after a handler: the effects whose dependencies changed
    run, the round effect after the one that feeds it. *)
Definition step (e : event) (s : state) : state :=
  let s1 := handle e s in
  let s2 := if changesSeedOrLocations e s then gameLocationsEffect s1 else s1 in
  if bool_decide (round s2 = round s
                  /\ length (gameLocations s2) = length (gameLocations s))
  then s2 else roundInitEffect s2.

Definition run (trace : list event) (s : state) : state :=
  foldl (fun s e => step e s) s trace.

(** The round sequence a session derives from a seed and a location list. *)
Definition buildRounds (allLocations : list PanoramaLocation.t) (seed_ : Z)
  : list PanoramaLocation.t :=
  gameLocations (run [SeedResolved seed_; DataLoaded allLocations] initialState).

(** The states a session can be in. *)
Definition reachable (s : state) : Prop :=
  exists trace : list event, s = run trace initialState.

(** The sum of the points of the stored results, and the rounds they are
    stored for. *)
Definition totalScore (results : list RoundResult.t) : Z :=
  foldr Z.add 0 (map RoundResult.score results).
Definition resolvedRounds (s : state) : list nat :=
  map RoundResult.round (roundResults s).

(** The invariant of the state machine. *)
Record invariant (s : state) : Prop := Invariant {
  inv_upper :
    Forall (fun r => (RoundResult.round r <= round s)%nat) (roundResults s);
  inv_nodup : NoDup (resolvedRounds s);
  inv_resolved :
    round s ∈ resolvedRounds s -> showResults s = true /\ timer s = None;
  inv_timer :
    forall c, timer s = Some c ->
              c_round c = round s /\ c_gamePhase c = "exploring"%string;
  inv_score : score s = totalScore (roundResults s);
  inv_rough :
    Forall (fun r => RoundResult.distance r =
                       roughMeters (RoundResult.actualPosition r)
                                   (RoundResult.guessPosition r))
           (roundResults s);
  inv_round : (1 <= round s <= 5)%nat;
  inv_phase : gamePhase s = "exploring"%string /\ alerts s = [];
  inv_idle :
    gameLocations s = [] ->
    showResults s = false /\ gameOver s = false /\ timer s = None
    /\ currentLocation s = None /\ roundResults s = [];
  inv_started :
    gameLocations s <> [] -> is_Some (seed s) /\ loading s = false;
  inv_loaded : locations s <> [] -> loading s = false
}.

(** What the round effect needs of the state it runs on to establish the
    invariant. *)
Record startable (s : state) : Prop := Startable {
  st_upper :
    Forall (fun r => (RoundResult.round r <= round s)%nat) (roundResults s);
  st_nodup : NoDup (resolvedRounds s);
  st_fresh : round s ∉ resolvedRounds s;
  st_score : score s = totalScore (roundResults s);
  st_rough :
    Forall (fun r => RoundResult.distance r =
                       roughMeters (RoundResult.actualPosition r)
                                   (RoundResult.guessPosition r))
           (roundResults s);
  st_round : (1 <= round s <= 5)%nat;
  st_phase : gamePhase s = "exploring"%string /\ alerts s = [];
  st_locations : gameLocations s <> [];
  st_started : is_Some (seed s) /\ loading s = false
}.

(** How far a session has got: the rounds resolved so far, the countdown
    and the panorama on show. *)
Record progress (s : state) : Prop := Progress {
  pg_rounds :
    resolvedRounds s
    = seq 1 (if showResults s then round s else (round s - 1)%nat);
  pg_time : 0 <= timeLeft s <= 300;
  pg_running : is_Some (timer s) -> 1 <= timeLeft s;
  pg_current :
    gameLocations s <> [] ->
    currentLocation s = gameLocations s !! (round s - 1)%nat;
  pg_over : gameOver s = true -> round s = 5%nat /\ showResults s = true;
  pg_derived :
    gameLocations s <> [] ->
    exists seed_,
      seed s = Some seed_
      /\ gameLocations s = take 5 (getShuffledLocations (locations s) seed_)
}.

(** [Math.floor(Math.random() * 1000000)], the seed the first effect draws
    when the URL carries none; [random] is what [Math.random()] returned. *)
Definition generateSeed (random : R) : Z := Math_floor (random * 1000000).

(** The countdown as shown, [seconds] being integer valued: [%] is the
    remainder of the truncated division. *)
Definition formatTime (seconds : Z) : string :=
  let mins := seconds / 60 in
  let secs := Z.rem seconds 60 in
  (JsString.ToString mins ++ ":" ++ (if (secs <? 10)%Z then "0" else "")
   ++ JsString.ToString secs)%string.

Definition formatDistance (distance : option R) : string :=
  match distance with
  | None => "Unknown"
  | Some distance =>
      if Rlt_dec distance 1000
      then (JsString.ToString (JsString.Math_round distance) ++ " meters")%string
      else (JsString.toFixed_2 (distance / 1000) ++ " kilometers")%string
  end.


End Home.

(** Sample data: three panoramas on campus. *)
Definition samplePano (n : string) (lat lng : R) : PanoramaLocation.t :=
  PanoramaLocation.Make n ("UCF Location " ++ n) ("/ucf_panos/" ++ n ++ ".jpg")
    (lat, lng).
Definition threeLocations : list PanoramaLocation.t :=
  [samplePano "1" 28.6024 (-81.2001); samplePano "2" 28.6 (-81.2);
   samplePano "3" 28.605 (-81.195)]%R.

(** Sample data: a dataset of five panoramas and a game played to the end
    with explicit guesses. *)
Definition fiveLocations : list PanoramaLocation.t :=
  [samplePano "1" 28.6024 (-81.2001); samplePano "2" 28.6 (-81.2);
   samplePano "3" 28.605 (-81.195); samplePano "4" 28.598 (-81.205);
   samplePano "5" 28.607 (-81.198)]%R.

Definition playRound (guess : R * R) : list Home.event :=
  [Home.MapClick false guess; Home.ConfirmClick; Home.NextRoundClick].

Definition fullGame : list Home.event :=
  [Home.SeedResolved 42; Home.DataLoaded fiveLocations]
  ++ playRound (28.6, -81.2)%R ++ playRound (28.601, -81.2)%R
  ++ playRound (28.6, -81.201)%R ++ playRound (28.605, -81.2)%R
  ++ playRound (28.6, -81.195)%R.

(** The CSV as [setup.js] writes it: a header line, then one line
    [id,lat,lng] per panorama, each line ended by a newline. *)
Definition csvRow (row : string * string * string) : string :=
  let '(id, lat, lng) := row in (id ++ "," ++ lat ++ "," ++ lng)%string.

Fixpoint csvRows (rows : list (string * string * string)) : string :=
  match rows with
  | [] => EmptyString
  | row :: rows => (csvRow row ++ String JsString.newline (csvRows rows))%string
  end.

Definition csvText (header : string) (rows : list (string * string * string))
    : string :=
  (header ++ String JsString.newline (csvRows rows))%string.

Definition sampleCsv : string :=
  csvText "pano_id,lat,lng"
    [("J52ZXa_jSmPwCOFvOcce0Q", "28.599083861386735",
      "-81.20530840140005")]%string.

Import Scoring Home.

(** * Proofs *)

(** ** The number model *)
Section Numbers.

Lemma round53_nonneg_exact (x : Z) : x < two53 -> round53_nonneg x = x.
Proof.
  intros Hx. unfold round53_nonneg.
  destruct (Z.ltb_spec x two53); [reflexivity | lia].
Qed.

Lemma toDouble_exact (x : Z) : Z.abs x < two53 -> toDouble x = x.
Proof.
  intros Hx. unfold toDouble. rewrite round53_nonneg_exact by exact Hx.
  rewrite Z.mul_comm. apply Z.abs_sgn.
Qed.

(** Rounding moves a value by at most half a unit in the last place, which
    is at most [x / 2^53]. *)
Lemma round53_nonneg_bounds (x : Z) :
  0 <= x -> 0 <= round53_nonneg x /\ two53 * (round53_nonneg x - x) <= x.
Proof.
  intros Hx. unfold round53_nonneg.
  destruct (Z.ltb_spec x two53) as [Hlt | Hge]; [lia |].
  assert (Hpos : 0 < x) by (unfold two53 in Hge; lia).
  pose proof (Z.log2_spec x Hpos) as [Hlo Hhi].
  assert (Hlog : 53 <= Z.log2 x).
  { apply Z.log2_le_pow2; [exact Hpos | exact Hge]. }
  set (e := Z.log2 x - 52) in *.
  assert (He : 1 <= e) by (unfold e; lia).
  rewrite !Z.shiftl_mul_pow2, Z.shiftr_div_pow2 by lia.
  assert (Hpe : 0 < 2 ^ e) by (apply Z.pow_pos_nonneg; lia).
  assert (Hsplit : 2 ^ e = 2 * 2 ^ (e - 1)).
  { replace e with (Z.succ (e - 1)) at 1 by lia. apply Z.pow_succ_r. lia. }
  assert (Hlog2 : 2 ^ Z.log2 x = two53 * 2 ^ (e - 1)).
  { replace (Z.log2 x) with (53 + (e - 1)) by (unfold e; lia).
    rewrite Z.pow_add_r by lia. reflexivity. }
  pose proof (Z.div_mod x (2 ^ e) ltac:(lia)) as Hdm.
  pose proof (Z.mod_pos_bound x (2 ^ e) Hpe) as Hmod.
  assert (Hq : 0 <= x / 2 ^ e) by (apply Z.div_pos; lia).
  set (q := x / 2 ^ e) in *. set (m := x mod 2 ^ e) in *.
  set (h := 2 ^ (e - 1)) in *.
  replace (1 * h) with h by lia.
  assert (Hr : x - q * 2 ^ e = m) by lia.
  rewrite Hr.
  unfold two53 in *.
  destruct (Z.ltb_spec m h); [nia |].
  destruct (Z.ltb_spec h m); [nia |].
  destruct (Z.even q); nia.
Qed.

Lemma ToUint32_range (x : Z) : 0 <= ToUint32 x < two32.
Proof. unfold ToUint32. apply Z.mod_pos_bound. reflexivity. Qed.

Lemma ToInt32_range (x : Z) : - two31 <= ToInt32 x < two31.
Proof.
  unfold ToInt32.
  pose proof (Z.mod_pos_bound (x + two31) two32 eq_refl).
  unfold two31, two32 in *. lia.
Qed.

Lemma ToInt32_mod (x : Z) : ToInt32 x mod two32 = x mod two32.
Proof.
  unfold ToInt32.
  rewrite Zminus_mod, Z.mod_mod by (unfold two32; lia).
  rewrite <- Zminus_mod. f_equal. lia.
Qed.

Lemma mulberry32_mix_range (s : Z) : 0 <= mulberry32_mix s < two32.
Proof.
  unfold mulberry32_mix, js_ushr. rewrite Z.shiftr_0_r. apply ToUint32_range.
Qed.

Lemma draw_index_le (s : Z) (i : nat) :
  (draw_index (mulberry32_mix s) i <= i)%nat.
Proof.
  pose proof (mulberry32_mix_range s) as Hu.
  set (u := mulberry32_mix s) in *.
  unfold draw_index, js_mul, toDouble.
  set (m := Z.of_nat i + 1).
  assert (Hm : 1 <= m) by (unfold m; lia).
  assert (Hx : 0 <= u * m) by nia.
  destruct (round53_nonneg_bounds (Z.abs (u * m)) ltac:(lia)) as [H0 Hb].
  rewrite Z.abs_eq in * by exact Hx.
  assert (Hsg : Z.sgn (u * m) * round53_nonneg (u * m) <= round53_nonneg (u * m)).
  { destruct (Z.sgn_spec (u * m)) as [[_ ->] | [[_ ->] | [? _]]]; lia. }
  assert (Hlt : Z.sgn (u * m) * round53_nonneg (u * m) < m * two32).
  { unfold two53, two32 in *. nia. }
  assert (Z.sgn (u * m) * round53_nonneg (u * m) / two32 < m).
  { apply Z.div_lt_upper_bound; [reflexivity | lia]. }
  unfold m in *. lia.
Qed.

End Numbers.

(** ** Bit operations modulo 2^32 *)
Section Bits.

Lemma two32_pow : two32 = 2 ^ 32.
Proof. reflexivity. Qed.

Lemma lxor_mod (a b : Z) :
  Z.lxor a b mod two32 = Z.lxor (a mod two32) (b mod two32).
Proof.
  rewrite two32_pow. apply Z.bits_inj'. intros n Hn.
  rewrite Z.lxor_spec, !Z.testbit_mod_pow2, Z.lxor_spec by lia.
  destruct (n <? 32); simpl; [reflexivity |].
  reflexivity.
Qed.

Lemma lor_mod (a b : Z) :
  Z.lor a b mod two32 = Z.lor (a mod two32) (b mod two32).
Proof.
  rewrite two32_pow. apply Z.bits_inj'. intros n Hn.
  rewrite Z.lor_spec, !Z.testbit_mod_pow2, Z.lor_spec by lia.
  destruct (n <? 32); simpl; reflexivity.
Qed.

Lemma uint32_mod (x : Z) : 0 <= x < two32 -> x mod two32 = x.
Proof. intros H. apply Z.mod_small. exact H. Qed.

Lemma shiftr_uint32 (x n : Z) :
  0 <= x < two32 -> 0 <= n -> 0 <= Z.shiftr x n < two32.
Proof.
  intros Hx Hn. rewrite Z.shiftr_div_pow2 by exact Hn.
  assert (0 < 2 ^ n) by (apply Z.pow_pos_nonneg; lia).
  split; [apply Z.div_pos; lia |].
  apply Z.le_lt_trans with x; [| lia].
  apply Z.div_le_upper_bound; [lia | nia].
Qed.

Lemma lxor_uint32 (a b : Z) :
  0 <= a < two32 -> 0 <= b < two32 -> 0 <= Z.lxor a b < two32.
Proof.
  intros Ha Hb.
  rewrite <- (uint32_mod a Ha), <- (uint32_mod b Hb), <- lxor_mod.
  apply Z.mod_pos_bound. reflexivity.
Qed.

Lemma js_xor_mod (a b : Z) :
  js_xor a b mod two32 = Z.lxor (a mod two32) (b mod two32).
Proof. unfold js_xor. rewrite lxor_mod, !ToInt32_mod. reflexivity. Qed.

Lemma js_or_mod (a b : Z) :
  js_or a b mod two32 = Z.lor (a mod two32) (b mod two32).
Proof. unfold js_or. rewrite lor_mod, !ToInt32_mod. reflexivity. Qed.

Lemma Math_imul_mod (a b : Z) :
  Math_imul a b mod two32 = (a mod two32) * (b mod two32) mod two32.
Proof.
  unfold Math_imul. rewrite ToInt32_mod.
  rewrite Z.mul_mod by (unfold two32; lia).
  rewrite !ToInt32_mod. reflexivity.
Qed.

Lemma js_ushr_mod (a n : Z) :
  0 <= n -> js_ushr a n mod two32 = Z.shiftr (a mod two32) n.
Proof.
  intros Hn. unfold js_ushr, ToUint32. apply uint32_mod.
  apply shiftr_uint32; [apply Z.mod_pos_bound; reflexivity | exact Hn].
Qed.

Lemma js_add_int32 (a b : Z) :
  - two31 <= a < two31 -> - two31 <= b < two31 -> js_add a b = a + b.
Proof.
  intros Ha Hb. unfold js_add. apply toDouble_exact.
  unfold two31, two53 in *. lia.
Qed.

Lemma Math_imul_range (a b : Z) : - two31 <= Math_imul a b < two31.
Proof. apply ToInt32_range. Qed.

(** The mixing on a JavaScript number and the mixing of the reference on its
    residue modulo 2^32 give the same 32 bits. *)
Lemma mulberry32_mix_next (seed state : Z) :
  (seed + 0x6D2B79F5) mod two32 = (state + 0x6D2B79F5) mod two32 ->
  mulberry32_mix (seed + 0x6D2B79F5) = fst (Reference.next state).
Proof.
  intros Hs. unfold mulberry32_mix, Reference.next. cbn [fst].
  rewrite <- Hs. set (s := seed + 0x6D2B79F5).
  set (r := s mod two32).
  assert (Hr : 0 <= r < two32) by (apply Z.mod_pos_bound; reflexivity).
  set (t1 := Math_imul (js_xor s (js_ushr s 15)) (js_or s 1)).
  set (z1 := (Z.lxor r (Z.shiftr r 15) * Z.lor r 1) mod two32).
  assert (H1 : t1 mod two32 = z1).
  { unfold t1, z1. rewrite Math_imul_mod, js_xor_mod, js_or_mod.
    rewrite js_ushr_mod by lia. fold r.
    rewrite (uint32_mod 1) by (unfold two32; lia). reflexivity. }
  assert (Hz1 : 0 <= z1 < two32) by (apply Z.mod_pos_bound; reflexivity).
  rewrite js_add_int32 by apply Math_imul_range.
  set (I := Math_imul (js_xor t1 (js_ushr t1 7)) (js_or t1 61)).
  set (t2 := js_xor t1 (t1 + I)).
  set (z2 := Z.lxor z1 ((z1 + (Z.lxor z1 (Z.shiftr z1 7) * Z.lor z1 61) mod two32) mod two32)).
  assert (H2 : t2 mod two32 = z2).
  { unfold t2, z2. rewrite js_xor_mod, H1. f_equal.
    rewrite Z.add_mod by (unfold two32; lia). rewrite H1.
    unfold I. rewrite Math_imul_mod, js_xor_mod, js_or_mod.
    rewrite js_ushr_mod by lia. rewrite H1.
    rewrite (uint32_mod 61) by (unfold two32; lia). reflexivity. }
  assert (Hz2 : 0 <= z2 < two32).
  { rewrite <- H2. apply Z.mod_pos_bound. reflexivity. }
  unfold js_ushr at 1. rewrite Z.shiftr_0_r. unfold ToUint32.
  rewrite js_xor_mod, H2. rewrite js_ushr_mod by lia. rewrite H2.
  reflexivity.
Qed.

Lemma Reference_next_snd (state : Z) :
  snd (Reference.next state) = (state + 0x6D2B79F5) mod two32.
Proof. reflexivity. Qed.

End Bits.

(** ** The generator state over many calls *)
Section Drift.

Lemma mulberry32_state_exact (n : N) (seed : Z) :
  Z.abs seed + Z.of_N n * 0x6D2B79F5 < two53 ->
  mulberry32_state n seed = seed + Z.of_N n * 0x6D2B79F5.
Proof.
  unfold mulberry32_state.
  induction n as [| n IH] using N.peano_ind; intros Hr.
  - cbn. lia.
  - rewrite N.iter_succ, IH by lia.
    unfold mulberry32_call. cbn [snd].
    unfold js_add. rewrite toDouble_exact by lia. lia.
Qed.

Lemma Reference_state_eq (n : N) (seed : Z) :
  Reference.state n seed = (seed + Z.of_N n * 0x6D2B79F5) mod two32.
Proof.
  unfold Reference.state.
  induction n as [| n IH] using N.peano_ind.
  - cbn. f_equal. lia.
  - rewrite N.iter_succ, IH, Reference_next_snd.
    rewrite Zplus_mod_idemp_l. f_equal. lia.
Qed.

(** A 32-bit seed leaves the exact range too, if the generator is called
    often enough: from seed 42 the first 4,917,758 calls agree with the
    32-bit generator, and the next one does not. *)
Lemma mulberry32_drifts_from_32_bit_seed :
  let n := 4917758%N in
  mulberry32_state n 42 mod two32 = Reference.state n 42
  /\ fst (mulberry32_call (mulberry32_state n 42))
     <> fst (Reference.next (Reference.state n 42)).
Proof.
  cbv zeta. rewrite mulberry32_state_exact by (vm_compute; reflexivity).
  rewrite Reference_state_eq. split; [reflexivity |].
  vm_compute. discriminate.
Qed.

End Drift.

(** ** The shuffle as a permutation, and against the reference *)
Section Swap.
Context {A : Type}.
Implicit Types l : list A.

Lemma insert_head_perm l (j : nat) (x y : A) :
  l !! j = Some y -> y :: <[j := x]> l ≡ₚ x :: l.
Proof.
  revert j. induction l as [| a l IH]; intros [| j] Hj; simplify_eq/=.
  - apply perm_swap.
  - rewrite perm_swap, (IH _ Hj). apply perm_swap.
Qed.

Lemma swap_perm l (i j : nat) : swap l i j ≡ₚ l.
Proof.
  unfold swap.
  destruct (l !! i) as [x |] eqn:Hi; [| reflexivity].
  destruct (l !! j) as [y |] eqn:Hj; [| reflexivity].
  revert i j Hi Hj.
  induction l as [| a l IH]; intros [| i] [| j] Hi Hj; simplify_eq/=.
  - reflexivity.
  - apply insert_head_perm. exact Hj.
  - apply insert_head_perm. exact Hi.
  - f_equiv. apply IH; assumption.
Qed.

Lemma swap_length l (i j : nat) : length (swap l i j) = length l.
Proof. apply Permutation_length, swap_perm. Qed.

Lemma swap_in_range l (i j : nat) :
  (i < length l)%nat -> (j <= i)%nat ->
  exists x y, l !! i = Some x /\ l !! j = Some y
              /\ swap l i j = <[j := x]> (<[i := y]> l).
Proof.
  intros Hi Hj.
  destruct (lookup_lt_is_Some_2 l i Hi) as [x Hx].
  destruct (lookup_lt_is_Some_2 l j ltac:(lia)) as [y Hy].
  exists x, y. unfold swap. rewrite Hx, Hy. auto.
Qed.

(** Started below the length, the loop reads defined elements only. *)
Lemma shuffle_loop_checked_total (i : nat) (seed : Z) l :
  (i < length l)%nat ->
  shuffle_loop_checked i seed l = Some (shuffle_loop i seed l).
Proof.
  revert seed l. induction i as [| i IH]; intros seed l Hi; [reflexivity |].
  cbn [shuffle_loop_checked shuffle_loop]. unfold mulberry32_call.
  set (j := draw_index _ (S i)).
  destruct (swap_in_range l (S i) j Hi (draw_index_le _ _))
    as (x & y & Hx & Hy & Hswap).
  unfold swap_checked. rewrite Hx, Hy, <- Hswap.
  apply IH. rewrite swap_length. lia.
Qed.

Lemma shuffle_loop_perm (i : nat) (seed : Z) l :
  fst (shuffle_loop i seed l) ≡ₚ l.
Proof.
  revert seed l. induction i as [| i IH]; intros seed l; [reflexivity |].
  cbn [shuffle_loop]. unfold mulberry32_call.
  rewrite IH. apply swap_perm.
Qed.

Lemma getShuffledLocations_perm l (seed : Z) :
  getShuffledLocations l seed ≡ₚ l.
Proof. apply shuffle_loop_perm. Qed.

Lemma shuffle_loop_refines (i : nat) (seed state : Z) l :
  seed mod two32 = state mod two32 ->
  Z.abs seed + Z.of_nat i * 0x6D2B79F5 < two53 ->
  Z.of_nat i < 2 ^ 21 ->
  fst (shuffle_loop i seed l) = Reference.fisher_yates i state l.
Proof.
  revert seed state l.
  induction i as [| i IH]; intros seed state l Hmod Hrange Hi; [reflexivity |].
  cbn [shuffle_loop Reference.fisher_yates]. unfold mulberry32_call.
  assert (Hadd : js_add seed 0x6D2B79F5 = seed + 0x6D2B79F5).
  { apply toDouble_exact. lia. }
  rewrite Hadd.
  assert (Hmod' : (seed + 0x6D2B79F5) mod two32 = (state + 0x6D2B79F5) mod two32).
  { rewrite (Z.add_mod seed), (Z.add_mod state) by (unfold two32; lia).
    rewrite Hmod. reflexivity. }
  rewrite (mulberry32_mix_next seed state Hmod').
  destruct (Reference.next state) as [u state'] eqn:Hnext. cbn [fst].
  assert (Hst : state' = (state + 0x6D2B79F5) mod two32).
  { rewrite <- Reference_next_snd, Hnext. reflexivity. }
  assert (Hu : 0 <= u < two32).
  { replace u with (fst (Reference.next state)) by (rewrite Hnext; reflexivity).
    rewrite <- (mulberry32_mix_next seed state Hmod').
    apply mulberry32_mix_range. }
  assert (Hdraw : draw_index u (S i) = Reference.draw u (S i)).
  { unfold draw_index, Reference.draw, js_mul.
    rewrite toDouble_exact; [reflexivity |].
    unfold two32, two53 in *. rewrite Z.abs_eq by nia. nia. }
  rewrite Hdraw. apply IH.
  - rewrite Hmod', Hst, Z.mod_mod by (unfold two32; lia). reflexivity.
  - lia.
  - lia.
Qed.

End Swap.

(** ** The store-level code computes the pure functions *)
Section Store.
Context {A : Type}.
Implicit Types (h : JsHeap.heap A) (l : list A).

Lemma JsHeap_random_run h (g : nat) (seed : Z) :
  JsHeap.cells h !! g = Some seed ->
  JsHeap.random g h =
    (fst (mulberry32_call seed),
     JsHeap.Heap (JsHeap.arrays h)
                 (<[g := snd (mulberry32_call seed)]> (JsHeap.cells h))).
Proof.
  intros Hg. unfold JsHeap.random, JsHeap.bind, JsHeap.read_cell,
    JsHeap.write_cell, JsHeap.ret. cbn. rewrite Hg. reflexivity.
Qed.

Lemma JsHeap_swap_elements_run h (r i j : nat) l :
  JsHeap.arrays h !! r = Some l ->
  JsHeap.swap_elements r i j h =
    (tt, JsHeap.Heap (<[r := swap l i j]> (JsHeap.arrays h)) (JsHeap.cells h)).
Proof.
  intros Hr. unfold JsHeap.swap_elements, JsHeap.bind, JsHeap.array_get,
    JsHeap.array_set, JsHeap.ret, swap. cbn. rewrite Hr. cbn.
  assert (Hid : JsHeap.Heap (<[r := l]> (JsHeap.arrays h)) (JsHeap.cells h) = h).
  { rewrite list_insert_id by exact Hr. destruct h; reflexivity. }
  destruct (l !! i) as [x |] eqn:Hi; [| rewrite Hid; reflexivity].
  destruct (l !! j) as [y |] eqn:Hj; [| rewrite Hid; reflexivity].
  cbn. rewrite list_lookup_insert_eq by (eapply lookup_lt_Some; eauto).
  cbn. rewrite list_insert_insert_eq, Hr. reflexivity.
Qed.

Lemma JsHeap_shuffle_loop_run (i : nat) : forall h (g r : nat) (seed : Z) l,
  JsHeap.cells h !! g = Some seed ->
  JsHeap.arrays h !! r = Some l ->
  JsHeap.shuffle_loop g r i h =
    (tt, JsHeap.Heap (<[r := fst (shuffle_loop i seed l)]> (JsHeap.arrays h))
                     (<[g := snd (shuffle_loop i seed l)]> (JsHeap.cells h))).
Proof.
  induction i as [| i IH]; intros h g r seed l Hg Hr.
  - cbn. unfold JsHeap.ret. rewrite !list_insert_id by assumption.
    destruct h; reflexivity.
  - cbn [JsHeap.shuffle_loop shuffle_loop]. unfold JsHeap.bind at 1.
    rewrite (JsHeap_random_run h g seed Hg).
    unfold JsHeap.bind at 1.
    erewrite JsHeap_swap_elements_run by (cbn; exact Hr).
    destruct (mulberry32_call seed) as [u seed'] eqn:Hc. cbn [fst snd].
    erewrite IH; cbn.
    + rewrite !list_insert_insert_eq. reflexivity.
    + apply list_lookup_insert_eq. eapply lookup_lt_Some; eauto.
    + apply list_lookup_insert_eq. eapply lookup_lt_Some; eauto.
Qed.

Lemma insert_snoc {B : Type} (k : list B) (x y : B) :
  <[length k := y]> (k ++ [x]) = k ++ [y].
Proof.
  rewrite insert_app_r_alt by lia. rewrite Nat.sub_diag. reflexivity.
Qed.

Lemma lookup_snoc {B : Type} (k : list B) (x : B) :
  (k ++ [x]) !! length k = Some x.
Proof. rewrite lookup_app_r by lia. rewrite Nat.sub_diag. reflexivity. Qed.

Lemma JsHeap_getShuffledLocations_run h (locations : nat) (seed : Z) l :
  JsHeap.arrays h !! locations = Some l ->
  JsHeap.getShuffledLocations locations seed h =
    (length (JsHeap.arrays h),
     JsHeap.Heap (JsHeap.arrays h ++ [getShuffledLocations l seed])
       (JsHeap.cells h ++ [snd (shuffle_loop (length l - 1) seed l)])).
Proof.
  intros Hl. unfold JsHeap.getShuffledLocations, JsHeap.mulberry32,
    JsHeap.new_cell, JsHeap.read_array, JsHeap.new_array, JsHeap.array_length,
    JsHeap.bind, JsHeap.ret. cbn. rewrite Hl. cbn.
  rewrite lookup_snoc. cbn.
  erewrite JsHeap_shuffle_loop_run; cbn.
  - rewrite !insert_snoc. reflexivity.
  - apply lookup_snoc.
  - apply lookup_snoc.
Qed.

Lemma JsHeap_buildRounds_run h (locations : nat) (seed : Z) l :
  JsHeap.arrays h !! locations = Some l ->
  JsHeap.buildRounds locations seed h =
    (S (length (JsHeap.arrays h)),
     JsHeap.Heap
       (JsHeap.arrays h ++ [getShuffledLocations l seed;
                            take 5 (getShuffledLocations l seed)])
       (JsHeap.cells h ++ [snd (shuffle_loop (length l - 1) seed l)])).
Proof.
  intros Hl. unfold JsHeap.buildRounds, JsHeap.bind at 1.
  rewrite (JsHeap_getShuffledLocations_run h locations seed l Hl).
  unfold JsHeap.slice_0_5, JsHeap.bind, JsHeap.read_array, JsHeap.new_array.
  cbn. rewrite lookup_snoc. cbn. rewrite length_app. cbn.
  rewrite <- app_assoc. cbn. f_equal. lia.
Qed.

End Store.

(** ** The score *)
Section Score.
Local Open Scope R_scope.

Lemma calculateScore_form (actual guess : R * R) :
  calculateScore actual guess = score_form page_constants actual guess.
Proof.
  unfold calculateScore, score_form, decay, haversine, Math_floor. cbn.
  f_equal. f_equal. f_equal. f_equal. f_equal. lra.
Qed.

Lemma calculateScore_part_001_form (actual guess : R * R) :
  calculateScore_part_001 actual guess = score_form part_001_constants actual guess.
Proof.
  unfold calculateScore_part_001, score_form, decay, haversine, Math_floor. cbn.
  f_equal. f_equal. f_equal. f_equal. f_equal. lra.
Qed.

Lemma decay_nonneg (cs : constants) (d : R) : (0 <= decay cs d)%Z.
Proof. unfold decay. apply Z.le_max_l. Qed.


Lemma decay_zero (cs : constants) (z : Z) :
  maxPoints cs = IZR z -> (0 <= z)%Z -> decay cs 0 = z.
Proof.
  intros Hm Hz. unfold decay.
  replace (- (k cs * 0 / scale cs)) with 0 by (unfold Rdiv; ring).
  rewrite exp_0, Rmult_1_r, Hm, ZfloorZ. lia.
Qed.

Lemma exp_16 : 65536 < exp 16.
Proof.
  assert (H1 : 2 < exp 1) by (pose proof (exp_ineq1 1 ltac:(lra)); lra).
  assert (H2 : 4 < exp 2).
  { replace (exp 2) with (exp (1 + 1)) by (f_equal; lra). rewrite exp_plus. nra. }
  assert (H4 : 16 < exp 4).
  { replace (exp 4) with (exp (2 + 2)) by (f_equal; lra). rewrite exp_plus. nra. }
  assert (H8 : 256 < exp 8).
  { replace (exp 8) with (exp (4 + 4)) by (f_equal; lra). rewrite exp_plus. nra. }
  replace (exp 16) with (exp (8 + 8)) by (f_equal; lra). rewrite exp_plus. nra.
Qed.

Lemma decay_page_far (d : R) : 15 <= d -> decay page_constants d = 0%Z.
Proof.
  intros Hd. unfold decay. cbn.
  assert (Hpos : 0 < exp (- (1 * d / 0.9))) by apply exp_pos.
  assert (Hsmall : 5000 * exp (- (1 * d / 0.9)) < 1).
  { assert (Hle : exp (- (1 * d / 0.9)) <= exp (Ropp 16)).
    { destruct (Req_dec (- (1 * d / 0.9)) (Ropp 16)) as [-> | Hne]; [lra |].
      left. apply exp_increasing. lra. }
    rewrite (exp_Ropp 16) in Hle. pose proof exp_16 as H16.
    assert (/ exp 16 < / 65536).
    { apply Rinv_lt_contravar; [| exact H16].
      apply Rmult_lt_0_compat; lra. }
    lra. }
  rewrite (Zfloor_eq 0); [reflexivity |]. cbn. lra.
Qed.

Lemma Math_atan2_0_1 : Math_atan2 0 1 = 0.
Proof.
  unfold Math_atan2. destruct (Rlt_dec 0 1); [| lra].
  replace (0 / 1) with 0 by lra. apply atan_0.
Qed.

Lemma haversine_same (radius : R) (p : R * R) : haversine radius p p = 0.
Proof.
  unfold haversine, toRadians.
  replace ((fst p - fst p) * (PI / 180) / 2) with 0 by lra.
  replace ((snd p - snd p) * (PI / 180) / 2) with 0 by lra.
  rewrite sin_0.
  replace (0 * 0 + cos (fst p * (PI / 180)) * cos (fst p * (PI / 180)) * 0 * 0)
    with 0 by ring.
  rewrite sqrt_0. replace (1 - 0) with 1 by ring. rewrite sqrt_1.
  rewrite Math_atan2_0_1. ring.
Qed.

End Score.

Section Meridian.
Local Open Scope R_scope.

Lemma PI_lower_bound : 3.1415 < PI.
Proof.
  pose proof (PI_2_3_7_ineq 1) as [Hlo _].
  unfold PI_2_3_7_tg, tg_alt, Ratan_seq in Hlo. simpl in Hlo.
  lra.
Qed.

Lemma Math_atan2_sin_cos (h : R) :
  0 <= h < PI / 2 -> Math_atan2 (sin h) (cos h) = h.
Proof.
  intros Hh. unfold Math_atan2.
  assert (Hc : 0 < cos h) by (apply cos_gt_0; lra).
  destruct (Rlt_dec 0 (cos h)); [| contradiction].
  change (sin h / cos h) with (tan h). apply atan_tan. lra.
Qed.

(** Two points on one meridian: the haversine distance is the radius times
    the latitude difference in radians. *)
Lemma haversine_meridian (radius lat1 lat2 lon : R) :
  lat1 <= lat2 -> lat2 - lat1 < 180 ->
  haversine radius (lat1, lon) (lat2, lon) = radius * toRadians (lat2 - lat1).
Proof.
  intros Hle Hlt. unfold haversine. cbn [fst snd].
  pose proof PI_RGT_0 as Hpi.
  set (h := toRadians (lat2 - lat1) / 2).
  assert (Hh : 0 <= h < PI / 2).
  { unfold h, toRadians. split; nra. }
  replace (toRadians (lon - lon) / 2) with 0 by (unfold toRadians; lra).
  rewrite sin_0.
  replace (sin h * sin h + cos (toRadians lat1) * cos (toRadians lat2) * 0 * 0)
    with (Rsqr (sin h)) by (unfold Rsqr; ring).
  assert (Hs : 0 <= sin h) by (apply sin_ge_0; lra).
  assert (Hc : 0 < cos h) by (apply cos_gt_0; lra).
  rewrite sqrt_Rsqr by exact Hs.
  replace (1 - Rsqr (sin h)) with (Rsqr (cos h))
    by (pose proof (sin2_cos2 h); lra).
  rewrite sqrt_Rsqr by lra.
  rewrite Math_atan2_sin_cos by exact Hh.
  unfold h. f_equal. lra.
Qed.

End Meridian.

(** Distances of 15 miles and more exist: one degree of latitude. *)
Lemma score_far_example :
  fst (calculateScore (28, -81.2)%R (29, -81.2)%R) = 0.
Proof.
  rewrite calculateScore_form. cbn [fst score_form].
  apply decay_page_far. cbn [radius page_constants].
  rewrite haversine_meridian by lra.
  unfold toRadians. pose proof PI_lower_bound. lra.
Qed.

(** ** Bounds and symmetry of the distance *)
Section Bounds.
Local Open Scope R_scope.

Lemma Math_atan2_first_quadrant (y x : R) :
  0 <= y -> 0 <= x -> 0 <= Math_atan2 y x <= PI / 2.
Proof.
  intros Hy Hx. unfold Math_atan2. pose proof PI_RGT_0 as Hpi.
  destruct (Rlt_dec 0 x) as [Hpos | Hnpos].
  - split.
    + rewrite <- atan_0.
      destruct (Req_dec y 0) as [-> | Hne].
      * replace (0 / x) with 0 by (unfold Rdiv; ring). lra.
      * left. apply atan_increasing.
        apply Rdiv_lt_0_compat; lra.
    + left. apply atan_bound.
  - destruct (Rlt_dec x 0); [lra |].
    destruct (Rlt_dec 0 y); [lra |].
    destruct (Rlt_dec y 0); lra.
Qed.

Lemma haversine_bounds (radius : R) (p q : R * R) :
  0 <= radius ->
  0 <= haversine radius p q <= radius * PI.
Proof.
  intros Hr. unfold haversine.
  match goal with |- context [Math_atan2 ?y ?x] =>
    pose proof (Math_atan2_first_quadrant y x (sqrt_pos _) (sqrt_pos _))
      as [Hlo Hhi] end.
  split.
  - apply Rmult_le_pos; lra.
  - apply Rmult_le_compat_l; lra.
Qed.

Lemma haversine_sym (radius : R) (p q : R * R) :
  haversine radius p q = haversine radius q p.
Proof.
  unfold haversine, toRadians.
  replace ((fst p - fst q) * (PI / 180) / 2)
    with (- ((fst q - fst p) * (PI / 180) / 2)) by lra.
  replace ((snd p - snd q) * (PI / 180) / 2)
    with (- ((snd q - snd p) * (PI / 180) / 2)) by lra.
  rewrite !sin_neg.
  set (u := sin ((fst q - fst p) * (PI / 180) / 2)).
  set (v := sin ((snd q - snd p) * (PI / 180) / 2)).
  set (c1 := cos (fst p * (PI / 180))). set (c2 := cos (fst q * (PI / 180))).
  replace (- u * - u + c2 * c1 * - v * - v) with (u * u + c1 * c2 * v * v)
    by ring.
  reflexivity.
Qed.

Lemma roughMeters_sym (p q : R * R) : roughMeters p q = roughMeters q p.
Proof.
  unfold roughMeters.
  rewrite (Rabs_minus_sym (fst p)), (Rabs_minus_sym (snd p)). reflexivity.
Qed.

End Bounds.

(** ** The score in binary64: NaN *)
Section Floats.
  Import PrimFloat SpecFloat FloatOps FloatAxioms Binary64.
  Local Open Scope float_scope.

(** NaN is one value. *)
Lemma is_nan_eq (x : float) : is_nan x = true -> x = nan.
Proof.
  intros H. rewrite <- (SF2Prim_Prim2SF x).
  unfold is_nan in H. rewrite eqb_spec in H.
  destruct (Prim2SF x) as [s | s | | s m e] eqn:E; try reflexivity.
  - destruct s; discriminate H.
  - destruct s; discriminate H.
  - exfalso. unfold SFeqb, SFcompare in H.
    rewrite Z.compare_refl in H.
    assert (Hm : PosDef.Pos.compare_cont Eq m m = Eq)
      by (apply Pos.compare_cont_refl).
    rewrite Hm in H. destruct s; discriminate H.
Qed.

Lemma add_nan_l (x : float) : nan + x = nan.
Proof.
  rewrite <- (SF2Prim_Prim2SF (nan + x)), add_spec.
  change (Prim2SF nan) with S754_nan. reflexivity.
Qed.

Lemma add_nan_r (x : float) : x + nan = nan.
Proof.
  rewrite <- (SF2Prim_Prim2SF (x + nan)), add_spec.
  change (Prim2SF nan) with S754_nan.
  destruct (Prim2SF x) as [[] | [] | | [] m e]; reflexivity.
Qed.

Lemma sub_nan_l (x : float) : nan - x = nan.
Proof.
  rewrite <- (SF2Prim_Prim2SF (nan - x)), sub_spec.
  change (Prim2SF nan) with S754_nan. reflexivity.
Qed.

Lemma sub_nan_r (x : float) : x - nan = nan.
Proof.
  rewrite <- (SF2Prim_Prim2SF (x - nan)), sub_spec.
  change (Prim2SF nan) with S754_nan.
  destruct (Prim2SF x) as [[] | [] | | [] m e]; reflexivity.
Qed.

Lemma mul_nan_r (x : float) : x * nan = nan.
Proof.
  rewrite <- (SF2Prim_Prim2SF (x * nan)), mul_spec.
  change (Prim2SF nan) with S754_nan.
  destruct (Prim2SF x) as [[] | [] | | [] m e]; reflexivity.
Qed.

(** The square root of a value below zero is NaN. *)
Lemma sqrt_below_zero (x : float) : (x <? 0) = true -> sqrt x = nan.
Proof.
  intros H. rewrite <- (SF2Prim_Prim2SF (sqrt x)), sqrt_spec.
  rewrite ltb_spec in H. change (Prim2SF 0) with (S754_zero false) in H.
  destruct (Prim2SF x) as [s | [] | | [] m e]; try discriminate H;
    reflexivity.
Qed.


(** Once the term [a] is NaN or above 1, nothing but NaN comes out. *)
Lemma calculateScore_term_nan (M : Libm) (actualPos guessedPos : float * float) :
  haversineTerm M actualPos guessedPos = nan ->
  calculateScore M actualPos guessedPos = (nan, nan).
Proof.
  intros Ha. unfold calculateScore. cbv zeta. rewrite Ha. reflexivity.
Qed.

Lemma Math_atan2_nan_r (M : Libm) (y : float) : Math_atan2 M y nan = nan.
Proof.
  unfold Math_atan2. change (is_nan nan) with true. rewrite orb_true_r.
  reflexivity.
Qed.

Lemma calculateScore_term_above_one (M : Libm)
    (actualPos guessedPos : float * float) :
  (1 - haversineTerm M actualPos guessedPos <? 0) = true ->
  calculateScore M actualPos guessedPos = (nan, nan).
Proof.
  intros Ha. unfold calculateScore. cbv zeta.
  unfold Math_sqrt. rewrite (sqrt_below_zero _ Ha), Math_atan2_nan_r.
  reflexivity.
Qed.

Lemma haversineTerm_nan (M : Libm) (lat1 lon1 lat2 lon2 : float) :
  is_nan lat1 || is_nan lon1 || is_nan lat2 || is_nan lon2 = true ->
  haversineTerm M (lat1, lon1) (lat2, lon2) = nan.
Proof.
  intros H. unfold haversineTerm, toRadians. cbn [fst snd].
  assert (Hsq : Math_sin M (nan * (Math_PI / 180) / 2) = nan) by reflexivity.
  assert (Hlat : is_nan lat1 || is_nan lat2 = true ->
                 Math_sin M ((lat2 - lat1) * (Math_PI / 180) / 2) = nan).
  { intros H'. apply orb_true_iff in H'. destruct H' as [H' | H'];
      apply is_nan_eq in H'; rewrite H'.
    - rewrite sub_nan_r. exact Hsq.
    - rewrite sub_nan_l. exact Hsq. }
  assert (Hlon : is_nan lon1 || is_nan lon2 = true ->
                 Math_sin M ((lon2 - lon1) * (Math_PI / 180) / 2) = nan).
  { intros H'. apply orb_true_iff in H'. destruct H' as [H' | H'];
      apply is_nan_eq in H'; rewrite H'.
    - rewrite sub_nan_r. exact Hsq.
    - rewrite sub_nan_l. exact Hsq. }
  destruct (is_nan lat1 || is_nan lat2) eqn:E1.
  - rewrite (Hlat eq_refl). change (nan * nan) with nan. apply add_nan_l.
  - rewrite (Hlon ltac:(destruct (is_nan lat1), (is_nan lat2), (is_nan lon1),
                         (is_nan lon2); try discriminate; reflexivity)).
    rewrite mul_nan_r. change (nan * nan) with nan. apply add_nan_r.
Qed.

(** Close to the antipode the term does exceed 1.  For the pair (2.5, 0) and
    (-2.5, 180), with the values a correctly rounding library returns for the
    sine and the cosine at the four arguments, the term is 1 + 2^-52. *)
Lemma calculateScore_near_antipode (M : Libm) :
  sin_approx M (-0x1.657184ae74487p-5) = -0x1.65547c4694e11p-5 ->
  sin_approx M 0x1.921fb54442d18p+0 = 1 ->
  cos_approx M 0x1.657184ae74487p-5 = 0x1.ff833f9da45f7p-1 ->
  cos_approx M (-0x1.657184ae74487p-5) = 0x1.ff833f9da45f7p-1 ->
  haversineTerm M (2.5, 0) (-2.5, 180) = 0x1.0000000000001p+0
  /\ calculateScore M (2.5, 0) (-2.5, 180) = (nan, nan).
Proof.
  intros Hs1 Hs2 Hc1 Hc2.
  assert (Ha : haversineTerm M (2.5, 0) (-2.5, 180) = 0x1.0000000000001p+0).
  { unfold haversineTerm, toRadians, Math_sin, Math_cos. cbn [fst snd].
    vm_compute (_ / 2). 
    vm_compute (2.5 * _). vm_compute (-2.5 * _).
    cbn. rewrite Hs1, Hs2, Hc1, Hc2. reflexivity. }
  split; [exact Ha |].
  apply calculateScore_term_above_one. rewrite Ha. reflexivity.
Qed.

End Floats.

(** ** The state machine keeps its invariant *)
Section Machine.

Lemma getShuffledLocations_length {A : Type} (l : list A) (seed : Z) :
  length (getShuffledLocations l seed) = length l.
Proof. apply Permutation_length, getShuffledLocations_perm. Qed.

Lemma take5_shuffled_nonempty {A : Type} (l : list A) (seed : Z) :
  (0 < length l)%nat -> take 5 (getShuffledLocations l seed) <> [].
Proof.
  intros Hl Hnil. apply (f_equal length) in Hnil.
  rewrite length_take, getShuffledLocations_length in Hnil.
  change (length (@nil A)) with 0%nat in Hnil. lia.
Qed.

Lemma totalScore_snoc (rs : list RoundResult.t) (r : RoundResult.t) :
  totalScore (rs ++ [r]) = totalScore rs + RoundResult.score r.
Proof.
  unfold totalScore. induction rs as [| a rs IH]; cbn in *; [lia |].
  rewrite IH. lia.
Qed.

Lemma initialState_invariant : invariant initialState.
Proof.
  constructor; cbn; try (intros; congruence); auto.
  - constructor.
  - intros H. inversion H.
  - lia.
Qed.

(** What [makeGuess] does once its guard lets it through. *)
Lemma makeGuess_exploring (c : closure) (s : state) :
  c_gamePhase c = "exploring"%string ->
  makeGuess c s =
    match c_currentLocation c with
    | None => clearInterval s
    | Some loc =>
        let actual := PanoramaLocation.coordinates loc in
        let guess := default (28.6024, -81.2001)%R (c_selectedPosition c) in
        let points := fst (calculateScore actual guess) in
        State (score s + points) (round s) (loading s) (gamePhase s)
          (selectedPosition s) (seed s) (gameLocations s) (locations s)
          (currentLocation s) points (timeLeft s) true (gameOver s)
          (roundResults s ++
             [RoundResult.Make (c_round c) (PanoramaLocation.name loc) actual
                guess points (roughMeters actual guess)])
          None (roundEffectCleanup s) (alerts s)
    end.
Proof.
  intros Hp. unfold makeGuess. rewrite Hp.
  change (String.eqb "exploring" "guessing") with false.
  rewrite andb_false_r.
  destruct (c_currentLocation c) as [loc |]; [| reflexivity].
  destruct (calculateScore _ _) as [points meters]. reflexivity.
Qed.

Ltac fields :=
  unfold clearInterval, capture, setScore, setRound, setLoading, setGamePhase,
    setSelectedPosition, setSeed, setGameLocations, setLocations,
    setCurrentLocation, setRoundScore, setTimeLeft, setShowResults,
    setGameOver, setRoundResults, setTimer, setRoundEffectCleanup, alert in *;
  cbn [score round loading gamePhase selectedPosition seed gameLocations
       locations currentLocation roundScore timeLeft showResults gameOver
       roundResults timer roundEffectCleanup alerts
       RoundResult.round RoundResult.score RoundResult.distance
       RoundResult.actualPosition RoundResult.guessPosition
       c_round c_gamePhase c_currentLocation c_selectedPosition] in *.

Lemma makeGuess_invariant (c : closure) (s : state) :
  invariant s ->
  c_gamePhase c = "exploring"%string ->
  c_round c = round s ->
  round s ∉ resolvedRounds s ->
  (is_Some (c_currentLocation c) -> gameLocations s <> []) ->
  invariant (makeGuess c s).
Proof.
  intros [] Hp Hr Hnew Hne. rewrite (makeGuess_exploring c s Hp).
  destruct (c_currentLocation c) as [loc |].
  - specialize (Hne ltac:(eauto)).
    constructor; unfold resolvedRounds in *; fields; try assumption.
    + apply Forall_app. split; [assumption |].
      repeat constructor. fields. lia.
    + rewrite map_app. apply NoDup_app. repeat split.
      * assumption.
      * intros x Hx Hx'. apply list_elem_of_singleton in Hx'. subst x.
        fields. rewrite Hr in Hx. contradiction.
      * apply NoDup_singleton.
    + auto.
    + intros c' Hc'. discriminate.
    + rewrite totalScore_snoc. fields. lia.
    + apply Forall_app. split; [assumption |]. repeat constructor.
    + intros Hnil. contradiction.
  - unfold clearInterval, setTimer.
    constructor; unfold resolvedRounds in *; fields; try assumption.
    + intros Hin. contradiction.
    + intros c' Hc'. discriminate.
    + intros Hnil. destruct (inv_idle0 Hnil) as (? & ? & ? & ? & ?). auto.
Qed.

Lemma makeGuess_frame (c : closure) (s : state) :
  round (makeGuess c s) = round s
  /\ gameLocations (makeGuess c s) = gameLocations s.
Proof.
  unfold makeGuess.
  destruct (negb _ && _); [split; reflexivity |].
  destruct (c_currentLocation c); [| split; reflexivity].
  destruct (calculateScore _ _). split; reflexivity.
Qed.

Lemma roundInitEffect_run (s : state) :
  gameLocations s <> [] -> (round s <= 5)%nat ->
  roundInitEffect s =
    State (score s) (round s) (loading s) "exploring" None (seed s)
      (gameLocations s) (locations s)
      (gameLocations s !! (round s - 1)%nat) 0 300 false (gameOver s)
      (roundResults s) (Some (capture s)) true (alerts s).
Proof.
  intros Hne Hr. unfold roundInitEffect.
  assert (Hlen : (length (gameLocations (if roundEffectCleanup s
                                         then clearInterval s else s)) =? 0)%nat
                 = false).
  { destruct (roundEffectCleanup s); cbn;
      destruct (gameLocations s); [contradiction | reflexivity
                                  | contradiction | reflexivity]. }
  rewrite Hlen.
  assert (Hle : (round (if roundEffectCleanup s then clearInterval s else s)
                 <=? 5)%nat = true).
  { destruct (roundEffectCleanup s); cbn; apply Nat.leb_le; exact Hr. }
  rewrite Hle. destruct (roundEffectCleanup s); reflexivity.
Qed.

Lemma roundInitEffect_invariant (s : state) :
  startable s -> invariant (roundInitEffect s).
Proof.
  intros []. rewrite roundInitEffect_run by (assumption || lia).
  constructor; unfold resolvedRounds in *; fields; try assumption.
  - intros Hin. contradiction.
  - intros c Hc. injection Hc as <-. unfold capture. fields.
    split; [reflexivity | apply st_phase0].
  - split; [reflexivity | apply st_phase0].
  - intros Hnil. contradiction.
  - intros _. assumption.
  - intros _. apply st_started0.
Qed.

Lemma step_same (e : event) (s s' : state) :
  handle e s = s' -> changesSeedOrLocations e s = false ->
  round s' = round s -> gameLocations s' = gameLocations s ->
  step e s = s'.
Proof.
  intros Hh Hc Hr Hg. unfold step. rewrite Hh, Hc.
  rewrite bool_decide_eq_true_2; [reflexivity |]. rewrite Hr, Hg. auto.
Qed.

Lemma invariant_fresh (s : state) :
  invariant s -> showResults s = false \/ is_Some (timer s) ->
  round s ∉ resolvedRounds s.
Proof.
  intros [] Hopen Hin. destruct (inv_resolved0 Hin) as [Hs Ht].
  destruct Hopen as [Hf | [c Hc]]; congruence.
Qed.

Lemma invariant_playing (s : state) :
  invariant s ->
  showResults s = true \/ gameOver s = true \/ is_Some (timer s)
  \/ is_Some (currentLocation s) ->
  gameLocations s <> [].
Proof.
  intros [] Hplay Hnil. destruct (inv_idle0 Hnil) as (Hs & Hg & Ht & Hc & _).
  destruct Hplay as [H | [H | [[? H] | [? H]]]]; congruence.
Qed.

Lemma invariant_setSelectedPosition (v : option (R * R)) (s : state) :
  invariant s -> invariant (setSelectedPosition v s).
Proof. intros []. constructor; assumption. Qed.

Lemma invariant_setTimeLeft (f : Z -> Z) (s : state) :
  invariant s -> invariant (setTimeLeft f s).
Proof. intros []. constructor; assumption. Qed.

Lemma invariant_clearInterval (s : state) :
  invariant s -> invariant (clearInterval s).
Proof.
  intros []. constructor; try assumption; unfold resolvedRounds in *; fields.
  - intros Hin. split; [apply inv_resolved0; exact Hin | reflexivity].
  - intros c Hc. discriminate.
  - intros Hnil. destruct (inv_idle0 Hnil) as (? & ? & ? & ? & ?). auto.
Qed.

Lemma invariant_makeGuess_capture (s : state) :
  invariant s -> showResults s = false -> invariant (makeGuess (capture s) s).
Proof.
  intros Hinv Hs. apply makeGuess_invariant; try assumption.
  - apply (inv_phase s Hinv).
  - reflexivity.
  - apply invariant_fresh; auto.
  - intros Hc. apply invariant_playing; auto.
Qed.

Lemma step_SeedResolved (gameSeed : Z) (s : state) :
  invariant s -> invariant (step (SeedResolved gameSeed) s).
Proof.
  intros Hinv. destruct (seed s) as [sd |] eqn:Hseed.
  - rewrite (step_same _ s s); auto; cbn; rewrite Hseed; reflexivity.
  - assert (Hnil : gameLocations s = []).
    { destruct (gameLocations s) eqn:Hg; [reflexivity |].
      destruct Hinv. destruct inv_started0 as [[? Hsome] _]; congruence. }
    destruct (inv_idle s Hinv Hnil) as (Hs & Hgo & Ht & Hc & Hrr).
    assert (Hch : changesSeedOrLocations (SeedResolved gameSeed) s = true).
    { cbn. rewrite Hseed. reflexivity. }
    unfold step. rewrite Hch. cbn [handle]. rewrite Hseed.
    unfold gameLocationsEffect. cbn [seed setSeed locations].
    destruct (0 <? length (locations s))%nat eqn:Hlen.
    + apply Nat.ltb_lt in Hlen.
      pose proof (take5_shuffled_nonempty (locations s) gameSeed Hlen) as Hne.
      rewrite bool_decide_eq_false_2.
      * apply roundInitEffect_invariant. destruct Hinv.
        constructor; unfold resolvedRounds in *; fields; try assumption.
        -- rewrite Hrr. cbn. apply not_elem_of_nil.
        -- split; [eauto |]. apply inv_loaded0.
           intros Hl. rewrite Hl in Hlen. cbn in Hlen. lia.
      * cbn. rewrite Hnil. intros [_ Hl]. cbn in Hl.
        destruct (take 5 _); [contradiction | discriminate].
    + rewrite bool_decide_eq_true_2 by (split; reflexivity).
      destruct Hinv. constructor; unfold resolvedRounds in *; fields;
        try assumption.
      intros Hne. contradiction.
Qed.

Lemma step_DataLoaded (panoLocations : list PanoramaLocation.t) (s : state) :
  invariant s -> invariant (step (DataLoaded panoLocations) s).
Proof.
  intros Hinv. destruct (loading s) eqn:Hload.
  - assert (Hnil : gameLocations s = []).
    { destruct (gameLocations s) eqn:Hg; [reflexivity |].
      destruct Hinv. destruct inv_started0 as [_ ?]; congruence. }
    destruct (inv_idle s Hinv Hnil) as (Hs & Hgo & Ht & Hc & Hrr).
    unfold step. cbn [handle changesSeedOrLocations]. rewrite Hload.
    unfold gameLocationsEffect. cbn [seed setLoading setLocations locations].
    assert (Hidle : invariant (setLoading false (setLocations panoLocations s))).
    { destruct Hinv. constructor; unfold resolvedRounds in *; fields;
        try assumption.
      - intros Hne. contradiction.
      - reflexivity. }
    destruct (seed s) as [sd |] eqn:Hseed;
      [| rewrite bool_decide_eq_true_2 by (split; reflexivity); exact Hidle].
    destruct (0 <? length panoLocations)%nat eqn:Hlen;
      [| rewrite bool_decide_eq_true_2 by (split; reflexivity); exact Hidle].
    apply Nat.ltb_lt in Hlen.
    pose proof (take5_shuffled_nonempty panoLocations sd Hlen) as Hne.
    rewrite bool_decide_eq_false_2.
    + apply roundInitEffect_invariant. destruct Hinv.
      constructor; unfold resolvedRounds in *; fields; try assumption.
      * rewrite Hrr. cbn. apply not_elem_of_nil.
      * split; [rewrite Hseed; eauto | reflexivity].
    + cbn. rewrite Hnil. intros [_ Hl]. cbn in Hl.
      destruct (take 5 _); [contradiction | discriminate].
  - rewrite (step_same _ s s); auto; cbn; rewrite Hload; reflexivity.
Qed.

Lemma step_MapClick (b : bool) (position : R * R) (s : state) :
  invariant s -> invariant (step (MapClick b position) s).
Proof.
  intros Hinv.
  rewrite (step_same _ s (handle (MapClick b position) s)); auto.
  - cbn. destruct (mainShown s); [| exact Hinv]. unfold handleMapClick.
    destruct (negb b); [apply invariant_setSelectedPosition |]; exact Hinv.
  - cbn. destruct (mainShown s); [| reflexivity]. unfold handleMapClick.
    destruct (negb b); reflexivity.
  - cbn. destruct (mainShown s); [| reflexivity]. unfold handleMapClick.
    destruct (negb b); reflexivity.
Qed.

Lemma step_ConfirmClick (s : state) :
  invariant s -> invariant (step ConfirmClick s).
Proof.
  intros Hinv.
  rewrite (step_same _ s (handle ConfirmClick s)); auto; cbn.
  - destruct (confirmEnabled s) eqn:He; [| exact Hinv].
    apply invariant_makeGuess_capture; [exact Hinv |].
    unfold confirmEnabled in He. destruct (showResults s); [| reflexivity].
    rewrite andb_false_r in He. discriminate.
  - destruct (confirmEnabled s); [apply makeGuess_frame | reflexivity].
  - destruct (confirmEnabled s); [apply makeGuess_frame | reflexivity].
Qed.

Lemma step_SpaceKey (s : state) :
  invariant s -> invariant (step SpaceKey s).
Proof.
  intros Hinv.
  rewrite (step_same _ s (handle SpaceKey s)); auto; cbn;
    unfold handleKeyDown_Space.
  - destruct (bool_decide _ && negb (showResults s)) eqn:He; [| exact Hinv].
    apply invariant_makeGuess_capture; [exact Hinv |].
    destruct (showResults s); [| reflexivity].
    rewrite andb_false_r in He. discriminate.
  - destruct (bool_decide _ && _); [apply makeGuess_frame | reflexivity].
  - destruct (bool_decide _ && _); [apply makeGuess_frame | reflexivity].
Qed.

Lemma step_Tick (s : state) : invariant s -> invariant (step Tick s).
Proof.
  intros Hinv.
  rewrite (step_same _ s (handle Tick s)); auto; cbn;
    destruct (timer s) as [c |] eqn:Ht; try reflexivity; try exact Hinv;
    unfold tick; destruct (timeLeft s <=? 1); try reflexivity.
  - apply invariant_setTimeLeft.
    destruct (inv_timer s Hinv c Ht) as [Hr Hp].
    apply makeGuess_invariant.
    + apply invariant_clearInterval. exact Hinv.
    + exact Hp.
    + exact Hr.
    + apply (invariant_fresh s Hinv). right. rewrite Ht. eauto.
    + intros _. apply (invariant_playing s Hinv). right. right. left.
      rewrite Ht. eauto.
  - apply invariant_setTimeLeft. exact Hinv.
  - apply (makeGuess_frame c (clearInterval s)).
  - apply (makeGuess_frame c (clearInterval s)).
Qed.

Lemma step_NextRoundClick (s : state) :
  invariant s -> invariant (step NextRoundClick s).
Proof.
  intros Hinv. destruct (nextShown s) eqn:Hn.
  - assert (Hs : showResults s = true).
    { unfold nextShown in Hn. destruct (showResults s); [reflexivity |].
      rewrite andb_false_r in Hn. discriminate. }
    assert (Hne : gameLocations s <> []).
    { apply (invariant_playing s Hinv). auto. }
    destruct (round s <? 5)%nat eqn:Hr.
    + apply Nat.ltb_lt in Hr. unfold step.
      cbn [handle changesSeedOrLocations]. rewrite Hn. unfold nextRound.
      rewrite (proj2 (Nat.ltb_lt _ _) Hr).
      rewrite bool_decide_eq_false_2 by (cbn; lia).
      apply roundInitEffect_invariant. destruct Hinv.
      constructor; unfold resolvedRounds in *; fields; try assumption.
      * eapply Forall_impl; [exact inv_upper0 |]. cbn. intros; lia.
      * intros Hin. apply list_elem_of_fmap in Hin as (r & Hr' & Hin).
        rewrite Forall_forall in inv_upper0.
        specialize (inv_upper0 r Hin). lia.
      * lia.
      * apply inv_started0. exact Hne.
    + rewrite (step_same _ s (setGameOver true s)); auto.
      * destruct Hinv. constructor; try assumption.
        intros Hnil. contradiction.
      * cbn. rewrite Hn. unfold nextRound. rewrite Hr. reflexivity.
  - rewrite (step_same _ s s); auto. cbn. rewrite Hn. reflexivity.
Qed.

Lemma restartGame_run (randomIndex : nat) (s : state) :
  restartGame randomIndex s =
    State 0 1 (loading s) "exploring" None (seed s) (gameLocations s)
      (locations s)
      (if (0 <? length (locations s))%nat then locations s !! randomIndex
       else currentLocation s)
      0 300 false false [] (Some (capture s)) (roundEffectCleanup s)
      (alerts s).
Proof.
  destruct s as [? ? ? ? ? ? ? locs ? ? ? ? ? ? ? ? ?].
  cbv beta iota zeta delta
    [restartGame clearInterval capture setScore setRound setGamePhase
     setSelectedPosition setCurrentLocation setRoundScore setTimeLeft
     setShowResults setGameOver setRoundResults setTimer
     score round loading gamePhase selectedPosition seed gameLocations
     locations currentLocation roundScore timeLeft showResults gameOver
     roundResults timer roundEffectCleanup alerts].
  destruct (0 <? length locs)%nat; reflexivity.
Qed.

Lemma step_PlayAgainClick (randomIndex : nat) (s : state) :
  invariant s -> invariant (step (PlayAgainClick randomIndex) s).
Proof.
  intros Hinv. destruct (gameOver s) eqn:Hg.
  - assert (Hne : gameLocations s <> []).
    { apply (invariant_playing s Hinv). auto. }
    unfold step. cbn [changesSeedOrLocations handle]. rewrite Hg.
    rewrite restartGame_run.
    set (cur := if (0 <? length (locations s))%nat
                then locations s !! randomIndex else currentLocation s).
    destruct Hinv. case_bool_decide as Hsame.
    + cbn [round gameLocations] in Hsame. destruct Hsame as [Hr1 _].
      constructor; unfold resolvedRounds in *; fields; try assumption.
      * constructor.
      * constructor.
      * intros Hin. inversion Hin.
      * intros c Hc. injection Hc as <-. cbn. split; [congruence | tauto].
      * reflexivity.
      * constructor.
      * lia.
      * split; [reflexivity | tauto].
      * intros Hnil. contradiction.
    + apply roundInitEffect_invariant.
      constructor; unfold resolvedRounds in *; fields; try assumption.
      * constructor.
      * constructor.
      * intros Hin. inversion Hin.
      * reflexivity.
      * constructor.
      * lia.
      * split; [reflexivity | tauto].
      * apply inv_started0. exact Hne.
  - rewrite (step_same _ s s); auto. cbn. rewrite Hg. reflexivity.
Qed.

Lemma step_invariant (e : event) (s : state) :
  invariant s -> invariant (step e s).
Proof.
  destruct e.
  - apply step_SeedResolved.
  - apply step_DataLoaded.
  - apply step_MapClick.
  - apply step_ConfirmClick.
  - apply step_SpaceKey.
  - apply step_Tick.
  - apply step_NextRoundClick.
  - apply step_PlayAgainClick.
Qed.

Lemma run_invariant (trace : list event) (s : state) :
  invariant s -> invariant (run trace s).
Proof.
  revert s. induction trace as [| e trace IH]; intros s Hinv; [exact Hinv |].
  cbn. apply IH, step_invariant, Hinv.
Qed.

Lemma reachable_invariant (s : state) : reachable s -> invariant s.
Proof.
  intros [trace ->]. apply run_invariant, initialState_invariant.
Qed.

End Machine.

(** ** Mounting *)
Section Mount.

Lemma step_SeedResolved_initial (gameSeed : Z) :
  step (SeedResolved gameSeed) initialState =
    setSeed (Some gameSeed) initialState.
Proof. reflexivity. Qed.

(** The state after the seed is known and a non-empty dataset has loaded:
    round 1 is set up on the first of the derived locations. *)
Lemma mount_nonempty (allLocations : list PanoramaLocation.t) (gameSeed : Z) :
  allLocations <> [] ->
  run [SeedResolved gameSeed; DataLoaded allLocations] initialState =
    State 0 1 false "exploring" None (Some gameSeed)
      (take 5 (getShuffledLocations allLocations gameSeed)) allLocations
      (take 5 (getShuffledLocations allLocations gameSeed) !! 0%nat)
      0 300 false false []
      (Some (Closure None "exploring" None 1)) true [].
Proof.
  intros Hne. unfold run. cbn [foldl]. rewrite step_SeedResolved_initial.
  assert (Hlen : (0 < length allLocations)%nat).
  { destruct allLocations; [contradiction | cbn; lia]. }
  pose proof (take5_shuffled_nonempty allLocations gameSeed Hlen) as Hne'.
  unfold step. cbn [handle changesSeedOrLocations loading setSeed initialState].
  unfold gameLocationsEffect.
  cbn [seed setLoading setLocations locations].
  rewrite (proj2 (Nat.ltb_lt _ _) Hlen).
  rewrite bool_decide_eq_false_2.
  - rewrite roundInitEffect_run; [reflexivity | exact Hne' | cbn; lia].
  - cbn. intros [_ Hl].
    destruct (take 5 _); [contradiction | discriminate].
Qed.

(** With an empty dataset nothing is derived and no round is set up. *)
Lemma mount_empty (gameSeed : Z) :
  run [SeedResolved gameSeed; DataLoaded []] initialState =
    State 0 1 false "exploring" None (Some gameSeed) [] [] None
      0 300 false false [] None false [].
Proof. reflexivity. Qed.

Lemma buildRounds_eq (allLocations : list PanoramaLocation.t) (gameSeed : Z) :
  buildRounds allLocations gameSeed =
    take 5 (getShuffledLocations allLocations gameSeed).
Proof.
  unfold buildRounds. destruct allLocations as [| a l].
  - reflexivity.
  - rewrite mount_nonempty by discriminate. reflexivity.
Qed.

End Mount.

(** ** Guards of the submission triggers *)
Section Guards.

(** Without a selection the Confirm button is disabled and the Space
    listener does nothing. *)
Lemma no_selection_ignored (s : state) :
  selectedPosition s = None ->
  step ConfirmClick s = s /\ step SpaceKey s = s.
Proof.
  intros Hsel. split; apply step_same; try reflexivity; cbn.
  - unfold confirmEnabled. rewrite Hsel. cbn. rewrite andb_false_r.
    reflexivity.
  - unfold handleKeyDown_Space. rewrite Hsel. reflexivity.
Qed.

(** With the results on screen no submission goes through, and a stopped
    countdown does not fire. *)
Lemma resolved_ignored (s : state) :
  showResults s = true -> timer s = None ->
  step ConfirmClick s = s /\ step SpaceKey s = s /\ step Tick s = s.
Proof.
  intros Hs Ht. repeat split; apply step_same; try reflexivity; cbn.
  - unfold confirmEnabled. rewrite Hs. cbn. rewrite andb_false_r.
    reflexivity.
  - unfold handleKeyDown_Space. rewrite Hs. rewrite andb_false_r.
    reflexivity.
  - rewrite Ht. reflexivity.
Qed.

End Guards.


(** ** What a resolved round stores *)
Section Stored.

Lemma roughMeters_meridian_example :
  roughMeters (28.6, -81.2)%R (28.61, -81.2)%R = 1110%R.
Proof.
  unfold roughMeters. cbn [fst snd].
  assert (Hlat : Rabs (28.6 - 28.61) = 0.01%R).
  { unfold Rabs. destruct (Rcase_abs _); lra. }
  assert (Hlng : Rabs (-81.2 - -81.2) = 0%R).
  { unfold Rabs. destruct (Rcase_abs _); lra. }
  rewrite Hlat, Hlng.
  replace (0.01 * 0.01 + 0 * 0)%R with (Rsqr 0.01) by (unfold Rsqr; lra).
  rewrite sqrt_Rsqr by lra. lra.
Qed.

Lemma haversine_meters_meridian_example :
  (1111 < snd (calculateScore (28.6, -81.2) (28.61, -81.2)))%R.
Proof.
  rewrite calculateScore_form. cbn [snd score_form radius metersPerMile page_constants].
  rewrite haversine_meridian by lra.
  unfold toRadians. pose proof PI_lower_bound. lra.
Qed.

(** A Confirm click with a selection, on a round that is being played. *)
Lemma step_ConfirmClick_run (s : state) (loc : PanoramaLocation.t)
    (guess : R * R) :
  mainShown s = true -> showResults s = false ->
  gamePhase s = "exploring"%string ->
  selectedPosition s = Some guess -> currentLocation s = Some loc ->
  roundResults (step ConfirmClick s) =
    roundResults s ++
      [RoundResult.Make (round s) (PanoramaLocation.name loc)
         (PanoramaLocation.coordinates loc) guess
         (fst (calculateScore (PanoramaLocation.coordinates loc) guess))
         (roughMeters (PanoramaLocation.coordinates loc) guess)].
Proof.
  intros Hm Hs Hp Hsel Hcur.
  assert (He : confirmEnabled s = true).
  { unfold confirmEnabled. rewrite Hm, Hs, Hsel. reflexivity. }
  rewrite (step_same _ s (makeGuess (capture s) s)).
  - rewrite makeGuess_exploring by exact Hp.
    unfold capture. cbn [c_currentLocation c_selectedPosition c_round].
    rewrite Hcur, Hsel. reflexivity.
  - cbn. rewrite He. reflexivity.
  - reflexivity.
  - apply makeGuess_frame.
  - apply makeGuess_frame.
Qed.

Lemma step_MapClick_run (s : state) (position : R * R) :
  mainShown s = true ->
  step (MapClick false position) s = setSelectedPosition (Some position) s.
Proof.
  intros Hm. apply step_same; try reflexivity. cbn. rewrite Hm. reflexivity.
Qed.

(** A resolved round, and the guard at work on it. *)
Lemma resolved_round_guarded :
  let s :=
    run [SeedResolved 42; DataLoaded [samplePano "1" 28.6 (-81.2)];
         MapClick false (28.61, -81.2)%R; ConfirmClick] initialState in
  round s ∈ resolvedRounds s /\ step ConfirmClick s = s.
Proof.
  cbv zeta.
  set (pano := samplePano "1" 28.6 (-81.2)).
  set (guess := (28.61, -81.2)%R).
  change (run [SeedResolved 42; DataLoaded [pano]; MapClick false guess;
               ConfirmClick] initialState)
    with (step ConfirmClick
            (step (MapClick false guess)
               (run [SeedResolved 42; DataLoaded [pano]] initialState))).
  rewrite mount_nonempty by discriminate.
  change (take 5 (getShuffledLocations [pano] 42)) with [pano].
  rewrite step_MapClick_run by reflexivity.
  set (s1 := setSelectedPosition _ _).
  assert (Hstep : step ConfirmClick s1 = makeGuess (capture s1) s1).
  { apply step_same; try reflexivity; apply makeGuess_frame. }
  rewrite Hstep, makeGuess_exploring by reflexivity.
  split.
  - unfold resolvedRounds. cbn. apply list_elem_of_singleton. reflexivity.
  - apply resolved_ignored; reflexivity.
Qed.

End Stored.


(** ** Progress of a session *)
Section Progress.

Ltac fields :=
  unfold clearInterval, capture, setScore, setRound, setLoading, setGamePhase,
    setSelectedPosition, setSeed, setGameLocations, setLocations,
    setCurrentLocation, setRoundScore, setTimeLeft, setShowResults,
    setGameOver, setRoundResults, setTimer, setRoundEffectCleanup, alert in *;
  cbn [score round loading gamePhase selectedPosition seed gameLocations
       locations currentLocation roundScore timeLeft showResults gameOver
       roundResults timer roundEffectCleanup alerts
       RoundResult.round RoundResult.score RoundResult.distance
       RoundResult.actualPosition RoundResult.guessPosition
       c_round c_gamePhase c_currentLocation c_selectedPosition] in *.

Lemma initialState_progress : progress initialState.
Proof.
  constructor; cbn; try (intros; congruence); auto.
  - lia.
  - intros [? ?]; discriminate.
Qed.

Lemma seq_snoc_round (n : nat) :
  (1 <= n)%nat -> seq 1 (n - 1) ++ [n] = seq 1 n.
Proof.
  intros Hn. replace n with (S (n - 1)) at 3 by lia.
  rewrite seq_S. f_equal. f_equal. lia.
Qed.

(** A running countdown belongs to a round that is not resolved yet. *)
Lemma running_unresolved (s : state) :
  invariant s -> progress s -> is_Some (timer s) -> showResults s = false.
Proof.
  intros Hinv Hpg [c Hc]. destruct (showResults s) eqn:Hs; [| reflexivity].
  assert (Hin : round s ∈ resolvedRounds s).
  { rewrite (pg_rounds s Hpg), Hs. apply list_elem_of_In, in_seq.
    pose proof (inv_round s Hinv). lia. }
  destruct (inv_resolved s Hinv Hin) as [_ Ht]. congruence.
Qed.

Lemma makeGuess_progress (c : closure) (s : state) :
  invariant s -> progress s ->
  c_gamePhase c = "exploring"%string ->
  c_round c = round s ->
  showResults s = false ->
  progress (makeGuess c s).
Proof.
  intros Hinv [] Hp Hr Hs. rewrite (makeGuess_exploring c s Hp).
  pose proof (inv_round s Hinv) as Hround.
  destruct (c_currentLocation c) as [loc |].
  - constructor; unfold resolvedRounds in *; fields; try assumption.
    + rewrite map_app, pg_rounds0, Hs, Hr. cbn [map RoundResult.round].
      apply seq_snoc_round. lia.
    + intros [? ?]; discriminate.
    + intros Hg. split; [apply pg_over0; exact Hg | reflexivity].
  - unfold clearInterval, setTimer.
    constructor; unfold resolvedRounds in *; fields; try assumption.
    intros [? ?]; discriminate.
Qed.

Lemma roundInitEffect_progress (s : state) :
  gameLocations s <> [] -> (1 <= round s <= 5)%nat ->
  gameOver s = false ->
  resolvedRounds s = seq 1 (round s - 1) ->
  (exists seed_,
      seed s = Some seed_
      /\ gameLocations s = take 5 (getShuffledLocations (locations s) seed_)) ->
  progress (roundInitEffect s).
Proof.
  intros Hne Hr Hg Hrs Hder.
  rewrite roundInitEffect_run by (assumption || lia).
  constructor; unfold resolvedRounds in *; fields; try assumption.
  - lia.
  - intros _. lia.
  - intros _. reflexivity.
  - intros Hg'. congruence.
  - intros _. exact Hder.
Qed.

Lemma progress_setSelectedPosition (v : option (R * R)) (s : state) :
  progress s -> progress (setSelectedPosition v s).
Proof. intros []. constructor; assumption. Qed.

Lemma progress_clearInterval (s : state) :
  progress s -> progress (clearInterval s).
Proof.
  intros []. constructor; try assumption. cbn. intros [? ?]; discriminate.
Qed.

Lemma progress_idle (s : state) :
  invariant s -> progress s -> gameLocations s = [] ->
  round s = 1%nat /\ resolvedRounds s = []
  /\ showResults s = false /\ gameOver s = false.
Proof.
  intros Hinv Hpg Hnil.
  destruct (inv_idle s Hinv Hnil) as (Hs & Hg & Ht & Hc & Hrr).
  pose proof (pg_rounds s Hpg) as Hrs. pose proof (inv_round s Hinv) as Hr.
  unfold resolvedRounds in *. rewrite Hrr, Hs in Hrs. cbn in Hrs.
  assert (round s = 1%nat).
  { destruct (round s) as [| [| n]]; [lia | reflexivity |].
    cbn in Hrs. discriminate. }
  rewrite Hrr. auto.
Qed.

Lemma step_SeedResolved_progress (gameSeed : Z) (s : state) :
  invariant s -> progress s -> progress (step (SeedResolved gameSeed) s).
Proof.
  intros Hinv Hpg. destruct (seed s) as [sd |] eqn:Hseed.
  - rewrite (step_same _ s s); auto; cbn; rewrite Hseed; reflexivity.
  - assert (Hnil : gameLocations s = []).
    { destruct (gameLocations s) eqn:Hg; [reflexivity |].
      destruct (inv_started s Hinv) as [[? Hsome] _]; congruence. }
    destruct (progress_idle s Hinv Hpg Hnil) as (Hr & Hrs & Hs & Hg).
    assert (Hch : changesSeedOrLocations (SeedResolved gameSeed) s = true).
    { cbn. rewrite Hseed. reflexivity. }
    unfold step. rewrite Hch. cbn [handle]. rewrite Hseed.
    unfold gameLocationsEffect. cbn [seed setSeed locations].
    destruct (0 <? length (locations s))%nat eqn:Hlen.
    + apply Nat.ltb_lt in Hlen.
      pose proof (take5_shuffled_nonempty (locations s) gameSeed Hlen) as Hne.
      rewrite bool_decide_eq_false_2.
      * apply roundInitEffect_progress; unfold resolvedRounds in *; fields;
          try assumption.
        -- lia.
        -- rewrite Hr. exact Hrs.
        -- eauto.
      * cbn. rewrite Hnil. intros [_ Hl]. cbn in Hl.
        destruct (take 5 _); [contradiction | discriminate].
    + rewrite bool_decide_eq_true_2 by (split; reflexivity).
      destruct Hpg. constructor; try assumption.
      cbn. intros Hne. contradiction.
Qed.

Lemma step_DataLoaded_progress (panoLocations : list PanoramaLocation.t)
    (s : state) :
  invariant s -> progress s -> progress (step (DataLoaded panoLocations) s).
Proof.
  intros Hinv Hpg. destruct (loading s) eqn:Hload.
  - assert (Hnil : gameLocations s = []).
    { destruct (gameLocations s) eqn:Hg; [reflexivity |].
      destruct (inv_started s Hinv) as [_ ?]; congruence. }
    destruct (progress_idle s Hinv Hpg Hnil) as (Hr & Hrs & Hs & Hg).
    unfold step. cbn [handle changesSeedOrLocations]. rewrite Hload.
    unfold gameLocationsEffect. cbn [seed setLoading setLocations locations].
    assert (Hidle : progress (setLoading false (setLocations panoLocations s))).
    { destruct Hpg. constructor; try assumption.
      cbn. intros Hne. contradiction. }
    destruct (seed s) as [sd |] eqn:Hseed;
      [| rewrite bool_decide_eq_true_2 by (split; reflexivity); exact Hidle].
    destruct (0 <? length panoLocations)%nat eqn:Hlen;
      [| rewrite bool_decide_eq_true_2 by (split; reflexivity); exact Hidle].
    apply Nat.ltb_lt in Hlen.
    pose proof (take5_shuffled_nonempty panoLocations sd Hlen) as Hne.
    rewrite bool_decide_eq_false_2.
    + apply roundInitEffect_progress; unfold resolvedRounds in *; fields;
        try assumption.
      * lia.
      * rewrite Hr. exact Hrs.
      * rewrite Hseed. eauto.
    + cbn. rewrite Hnil. intros [_ Hl]. cbn in Hl.
      destruct (take 5 _); [contradiction | discriminate].
  - rewrite (step_same _ s s); auto; cbn; rewrite Hload; reflexivity.
Qed.

Lemma step_MapClick_progress (b : bool) (position : R * R) (s : state) :
  progress s -> progress (step (MapClick b position) s).
Proof.
  intros Hpg.
  rewrite (step_same _ s (handle (MapClick b position) s)); auto.
  - cbn. destruct (mainShown s); [| exact Hpg]. unfold handleMapClick.
    destruct (negb b); [apply progress_setSelectedPosition |]; exact Hpg.
  - cbn. destruct (mainShown s); [| reflexivity]. unfold handleMapClick.
    destruct (negb b); reflexivity.
  - cbn. destruct (mainShown s); [| reflexivity]. unfold handleMapClick.
    destruct (negb b); reflexivity.
Qed.

Lemma step_ConfirmClick_progress (s : state) :
  invariant s -> progress s -> progress (step ConfirmClick s).
Proof.
  intros Hinv Hpg.
  rewrite (step_same _ s (handle ConfirmClick s)); auto; cbn.
  - destruct (confirmEnabled s) eqn:He; [| exact Hpg].
    apply makeGuess_progress; try assumption; try reflexivity.
    + apply (inv_phase s Hinv).
    + unfold confirmEnabled in He. destruct (showResults s); [| reflexivity].
      rewrite andb_false_r in He. discriminate.
  - destruct (confirmEnabled s); [apply makeGuess_frame | reflexivity].
  - destruct (confirmEnabled s); [apply makeGuess_frame | reflexivity].
Qed.

Lemma step_SpaceKey_progress (s : state) :
  invariant s -> progress s -> progress (step SpaceKey s).
Proof.
  intros Hinv Hpg.
  rewrite (step_same _ s (handle SpaceKey s)); auto; cbn;
    unfold handleKeyDown_Space.
  - destruct (bool_decide _ && negb (showResults s)) eqn:He; [| exact Hpg].
    apply makeGuess_progress; try assumption; try reflexivity.
    + apply (inv_phase s Hinv).
    + destruct (showResults s); [| reflexivity].
      rewrite andb_false_r in He. discriminate.
  - destruct (bool_decide _ && _); [apply makeGuess_frame | reflexivity].
  - destruct (bool_decide _ && _); [apply makeGuess_frame | reflexivity].
Qed.

Lemma makeGuess_stops_timer (c : closure) (s : state) :
  c_gamePhase c = "exploring"%string -> timer (makeGuess c s) = None.
Proof.
  intros Hp. rewrite (makeGuess_exploring c s Hp).
  destruct (c_currentLocation c); reflexivity.
Qed.

Lemma step_Tick_progress (s : state) :
  invariant s -> progress s -> progress (step Tick s).
Proof.
  intros Hinv Hpg.
  rewrite (step_same _ s (handle Tick s)); auto; cbn;
    destruct (timer s) as [c |] eqn:Ht; try reflexivity; try exact Hpg;
    unfold tick; destruct (timeLeft s <=? 1) eqn:Hle; try reflexivity.
  - destruct (inv_timer s Hinv c Ht) as [Hr Hp].
    assert (Hmg : progress (makeGuess c (clearInterval s))).
    { apply makeGuess_progress; try assumption.
      - apply invariant_clearInterval. exact Hinv.
      - apply progress_clearInterval. exact Hpg.
      - apply (running_unresolved s Hinv Hpg). rewrite Ht. eauto. }
    pose proof (makeGuess_stops_timer c (clearInterval s) Hp) as Hstop.
    destruct Hmg. constructor; try assumption; fields.
    + lia.
    + rewrite Hstop. intros [? ?]; discriminate.
  - apply Z.leb_gt in Hle. pose proof (pg_time s Hpg) as Htime.
    destruct Hpg. constructor; try assumption; fields.
    + lia.
    + intros _. lia.
  - apply (makeGuess_frame c (clearInterval s)).
  - apply (makeGuess_frame c (clearInterval s)).
Qed.

Lemma step_NextRoundClick_progress (s : state) :
  invariant s -> progress s -> progress (step NextRoundClick s).
Proof.
  intros Hinv Hpg. destruct (nextShown s) eqn:Hn.
  - assert (Hs : showResults s = true).
    { unfold nextShown in Hn. destruct (showResults s); [reflexivity |].
      rewrite andb_false_r in Hn. discriminate. }
    assert (Hg : gameOver s = false).
    { unfold nextShown, mainShown in Hn. destruct (gameOver s);
        [discriminate | reflexivity]. }
    assert (Hne : gameLocations s <> []).
    { apply (invariant_playing s Hinv). auto. }
    pose proof (inv_round s Hinv) as Hround.
    pose proof (pg_rounds s Hpg) as Hrs. rewrite Hs in Hrs.
    destruct (round s <? 5)%nat eqn:Hr.
    + apply Nat.ltb_lt in Hr. unfold step.
      cbn [handle changesSeedOrLocations]. rewrite Hn. unfold nextRound.
      rewrite (proj2 (Nat.ltb_lt _ _) Hr).
      rewrite bool_decide_eq_false_2 by (cbn; lia).
      apply roundInitEffect_progress; unfold resolvedRounds in *; fields;
        try assumption.
      * lia.
      * rewrite Hrs. f_equal. lia.
      * apply (pg_derived s Hpg Hne).
    + apply Nat.ltb_ge in Hr.
      rewrite (step_same _ s (setGameOver true s)); auto.
      * destruct Hpg. constructor; try assumption.
        intros _. split; [cbn; lia | exact Hs].
      * cbn. rewrite Hn. unfold nextRound.
        rewrite (proj2 (Nat.ltb_ge _ _) Hr). reflexivity.
  - rewrite (step_same _ s s); auto. cbn. rewrite Hn. reflexivity.
Qed.

Lemma step_PlayAgainClick_progress (randomIndex : nat) (s : state) :
  invariant s -> progress s ->
  progress (step (PlayAgainClick randomIndex) s).
Proof.
  intros Hinv Hpg. destruct (gameOver s) eqn:Hg.
  - assert (Hne : gameLocations s <> []).
    { apply (invariant_playing s Hinv). auto. }
    destruct (pg_over s Hpg Hg) as [Hr5 _].
    unfold step. cbn [changesSeedOrLocations handle]. rewrite Hg.
    rewrite restartGame_run.
    rewrite bool_decide_eq_false_2 by (cbn; rewrite Hr5; lia).
    apply roundInitEffect_progress; fields; try assumption; try reflexivity.
    + lia.
    + apply (pg_derived s Hpg Hne).
  - rewrite (step_same _ s s); auto. cbn. rewrite Hg. reflexivity.
Qed.

Lemma step_progress (e : event) (s : state) :
  invariant s -> progress s -> progress (step e s).
Proof.
  intros Hinv Hpg. destruct e.
  - apply step_SeedResolved_progress; assumption.
  - apply step_DataLoaded_progress; assumption.
  - apply step_MapClick_progress; assumption.
  - apply step_ConfirmClick_progress; assumption.
  - apply step_SpaceKey_progress; assumption.
  - apply step_Tick_progress; assumption.
  - apply step_NextRoundClick_progress; assumption.
  - apply step_PlayAgainClick_progress; assumption.
Qed.

Lemma run_progress (trace : list event) (s : state) :
  invariant s -> progress s -> progress (run trace s).
Proof.
  revert s. induction trace as [| e trace IH]; intros s Hinv Hpg;
    [exact Hpg |].
  cbn. apply IH; [apply step_invariant | apply step_progress]; assumption.
Qed.

Lemma reachable_progress (s : state) : reachable s -> progress s.
Proof.
  intros [trace ->].
  apply run_progress; [apply initialState_invariant | apply initialState_progress].
Qed.

End Progress.

(** ** The countdown over many firings *)
Section Countdown.

Lemma run_cons (e : event) (trace : list event) (s : state) :
  run (e :: trace) s = run trace (step e s).
Proof. reflexivity. Qed.

Lemma run_app (t1 t2 : list event) (s : state) :
  run (t1 ++ t2) s = run t2 (run t1 s).
Proof. apply foldl_app. Qed.

Lemma step_Tick_running (s : state) (c : closure) :
  timer s = Some c -> 1 < timeLeft s ->
  step Tick s = setTimeLeft (fun _ => timeLeft s - 1) s.
Proof.
  intros Ht Hlt. apply step_same; try reflexivity.
  cbn. rewrite Ht. unfold tick.
  rewrite (proj2 (Z.leb_gt _ _) Hlt). reflexivity.
Qed.

Lemma step_Tick_timeout (s : state) (c : closure) :
  timer s = Some c -> timeLeft s <= 1 ->
  step Tick s = setTimeLeft (fun _ => 0) (makeGuess c (clearInterval s)).
Proof.
  intros Ht Hle. apply step_same; try reflexivity.
  - cbn. rewrite Ht. unfold tick.
    rewrite (proj2 (Z.leb_le _ _) Hle). reflexivity.
  - apply (makeGuess_frame c (clearInterval s)).
  - apply (makeGuess_frame c (clearInterval s)).
Qed.

(** [n] firings that leave time on the clock only count down. *)
Lemma run_ticks (n : nat) : forall (s : state) (c : closure),
  timer s = Some c -> Z.of_nat n < timeLeft s ->
  run (replicate n Tick) s = setTimeLeft (fun _ => timeLeft s - Z.of_nat n) s.
Proof.
  induction n as [| n IH]; intros s c Ht Hlt.
  - cbn. destruct s. unfold setTimeLeft. cbn. f_equal. lia.
  - cbn [replicate]. rewrite run_cons.
    rewrite (step_Tick_running s c Ht) by lia.
    rewrite (IH _ c) by (cbn; (exact Ht || lia)).
    unfold setTimeLeft. cbn. f_equal. lia.
Qed.

Lemma makeGuess_setTimeLeft (c : closure) (f : Z -> Z) (s : state) :
  makeGuess c (clearInterval (setTimeLeft f s))
  = setTimeLeft f (makeGuess c (clearInterval s)).
Proof.
  unfold makeGuess.
  destruct (negb _ && _); [reflexivity |].
  destruct (c_currentLocation c); [| reflexivity].
  destruct (calculateScore _ _). reflexivity.
Qed.

(** Left alone, a countdown with [t] seconds on it fires [t] times and its
    last firing calls the [makeGuess] it closed over. *)
Lemma run_ticks_timeout (s : state) (c : closure) (t : nat) :
  timer s = Some c -> timeLeft s = Z.of_nat t -> (1 <= t)%nat ->
  run (replicate t Tick) s
  = setTimeLeft (fun _ => 0) (makeGuess c (clearInterval s)).
Proof.
  intros Ht Htime Hpos.
  replace t with ((t - 1) + 1)%nat at 1 by lia.
  rewrite replicate_add, run_app.
  rewrite (run_ticks (t - 1) s c Ht) by lia.
  cbn [replicate]. rewrite run_cons. change (run [] ?x) with x.
  rewrite (step_Tick_timeout _ c) by (cbn; (exact Ht || lia)).
  rewrite makeGuess_setTimeLeft. reflexivity.
Qed.

End Countdown.

(** ** Whole sessions *)
Section Sessions.

Lemma run_both (trace : list event) :
  invariant (run trace initialState) /\ progress (run trace initialState).
Proof.
  split.
  - apply run_invariant, initialState_invariant.
  - apply run_progress;
      [apply initialState_invariant | apply initialState_progress].
Qed.

End Sessions.

(** ** Next and Play Again *)
Section Advance.

(** Next, before the last round: the round effect sets up the next round and
    its interval closes over the render it runs in. *)
Lemma step_NextRoundClick_run (s : state) :
  invariant s -> nextShown s = true -> (round s < 5)%nat ->
  step NextRoundClick s =
    State (score s) (S (round s)) (loading s) "exploring" None (seed s)
      (gameLocations s) (locations s) (gameLocations s !! round s) 0 300
      false (gameOver s) (roundResults s)
      (Some (Closure (selectedPosition s) (gamePhase s) (currentLocation s)
               (S (round s))))
      true (alerts s).
Proof.
  intros Hinv Hn Hr.
  assert (Hs : showResults s = true).
  { unfold nextShown in Hn. destruct (showResults s); [reflexivity |].
    rewrite andb_false_r in Hn. discriminate. }
  assert (Hne : gameLocations s <> []).
  { apply (invariant_playing s Hinv). auto. }
  unfold step. cbn [handle changesSeedOrLocations]. rewrite Hn.
  unfold nextRound. rewrite (proj2 (Nat.ltb_lt _ _) Hr).
  rewrite bool_decide_eq_false_2 by (cbn; lia).
  rewrite roundInitEffect_run by (cbn; (assumption || lia)).
  cbn. rewrite Nat.sub_0_r. reflexivity.
Qed.

Lemma step_PlayAgainClick_run (s : state) (randomIndex : nat) :
  invariant s -> progress s -> gameOver s = true ->
  step (PlayAgainClick randomIndex) s =
    State 0 1 (loading s) "exploring" None (seed s) (gameLocations s)
      (locations s) (gameLocations s !! 0%nat) 0 300 false false []
      (Some (Closure None "exploring"
               (if (0 <? length (locations s))%nat
                then locations s !! randomIndex else currentLocation s)
               1))
      true (alerts s).
Proof.
  intros Hinv Hpg Hg.
  assert (Hne : gameLocations s <> []).
  { apply (invariant_playing s Hinv). auto. }
  destruct (pg_over s Hpg Hg) as [Hr5 _].
  unfold step. cbn [changesSeedOrLocations handle]. rewrite Hg.
  rewrite restartGame_run.
  rewrite bool_decide_eq_false_2 by (cbn; rewrite Hr5; lia).
  rewrite roundInitEffect_run by (cbn; (assumption || lia)).
  reflexivity.
Qed.

End Advance.

(** ** What an event adds to the results and the score *)
Section Ledger.

Lemma calculateScore_same (p : R * R) : calculateScore p p = (5000, 0%R).
Proof.
  rewrite calculateScore_form. unfold score_form.
  cbn [radius page_constants]. rewrite haversine_same. f_equal.
  - apply decay_zero; [reflexivity | lia].
  - cbn. lra.
Qed.




(** What one call of [makeGuess] adds. *)
Lemma makeGuess_ledger (c : closure) (s : state) :
  c_gamePhase c = "exploring"%string ->
  match c_currentLocation c with
  | None =>
      roundResults (makeGuess c s) = roundResults s
      /\ score (makeGuess c s) = score s
      /\ showResults (makeGuess c s) = showResults s
  | Some loc =>
      let actual := PanoramaLocation.coordinates loc in
      let guess := default (28.6024, -81.2001)%R (c_selectedPosition c) in
      let points := fst (calculateScore actual guess) in
      roundResults (makeGuess c s) =
        roundResults s ++
          [RoundResult.Make (c_round c) (PanoramaLocation.name loc) actual
             guess points (roughMeters actual guess)]
      /\ score (makeGuess c s) = score s + points
      /\ showResults (makeGuess c s) = true
  end.
Proof.
  intros Hp. rewrite (makeGuess_exploring c s Hp).
  destruct (c_currentLocation c); repeat split.
Qed.


End Ledger.

(** ** What is displayed *)
Section Display.

Lemma formatTime_shape (seconds : Z) :
  0 <= seconds <= 300 ->
  formatTime seconds
  = String (digit (seconds / 60))
      (String ":" (String (digit (seconds mod 60 / 10))
                          (String (digit (seconds mod 10)) ""))).
Proof.
  intros Hs.
  assert (Hall : forallb
            (fun n : nat =>
               let t := Z.of_nat n in
               String.eqb (formatTime t)
                 (String (digit (t / 60))
                    (String ":" (String (digit (t mod 60 / 10))
                                        (String (digit (t mod 10)) "")))))
            (seq 0 301) = true) by (vm_compute; reflexivity).
  rewrite forallb_forall in Hall.
  specialize (Hall (Z.to_nat seconds)).
  cbv zeta in Hall. rewrite Z2Nat.id in Hall by lia.
  apply String.eqb_eq, Hall, in_seq. lia.
Qed.

Lemma Math_round_spec (x : R) :
  (IZR (Math_round x) - / 2 <= x < IZR (Math_round x) + / 2)%R.
Proof.
  unfold Math_round. pose proof (Zfloor_bound (x + / 2)) as [H1 H2]. lra.
Qed.


End Display.

(** ** Lines of the CSV *)
Section Lines.

Lemma split_nonempty (sep : ascii) (s : string) : split sep s <> [].
Proof.
  destruct s as [| c s]; cbn; [discriminate |].
  destruct (Ascii.eqb c sep); [discriminate |].
  destruct (split sep s); discriminate.
Qed.

Lemma split_app (sep : ascii) (a b : string) :
  split sep (a ++ String sep b)%string = split sep a ++ split sep b.
Proof.
  induction a as [| c a IH]; cbn.
  - rewrite Ascii.eqb_refl. reflexivity.
  - destruct (Ascii.eqb c sep).
    + rewrite IH. reflexivity.
    + rewrite IH. pose proof (split_nonempty sep a) as Hne.
      destruct (split sep a) as [| w ws]; [contradiction | reflexivity].
Qed.

Lemma split_none (sep : ascii) (s : string) :
  ~ In sep (list_ascii_of_string s) -> split sep s = [s].
Proof.
  induction s as [| c s IH]; cbn; intros Hin; [reflexivity |].
  destruct (Ascii.eqb c sep) eqn:Hc.
  - apply Ascii.eqb_eq in Hc. exfalso. apply Hin. left. exact Hc.
  - rewrite IH; [reflexivity |]. intros H. apply Hin. right. exact H.
Qed.

(** The characters of a piece are characters of the string. *)
Lemma split_pieces (sep : ascii) (s piece : string) (c : ascii) :
  In piece (split sep s) -> In c (list_ascii_of_string piece) ->
  In c (list_ascii_of_string s).
Proof.
  revert piece. induction s as [| d s IH]; cbn; intros piece Hp Hc.
  - destruct Hp as [<- | []]. exact Hc.
  - destruct (Ascii.eqb d sep).
    + destruct Hp as [<- | Hp]; [destruct Hc |]. right. eapply IH; eassumption.
    + pose proof (split_nonempty sep s) as Hne.
      destruct (split sep s) as [| w ws]; [contradiction |].
      destruct Hp as [<- | Hp].
      * destruct Hc as [-> | Hc]; [left; reflexivity |].
        right. apply (IH w); [left; reflexivity | exact Hc].
      * right. apply (IH piece); [right; exact Hp | exact Hc].
Qed.

Lemma trimEnd_head (c : ascii) (s : string) :
  isWhiteSpace c = false -> trimEnd (String c s) <> EmptyString.
Proof.
  intros Hc. cbn. destruct (trimEnd s); [rewrite Hc |]; discriminate.
Qed.

Lemma trim_blank (s : string) :
  trim s = EmptyString
  <-> forall c, In c (list_ascii_of_string s) -> isWhiteSpace c = true.
Proof.
  unfold trim. induction s as [| d s IH]; cbn [trimStart list_ascii_of_string].
  - split; [intros _ c [] | reflexivity].
  - destruct (isWhiteSpace d) eqn:Hd.
    + rewrite IH. split.
      * intros H c [<- | Hc]; [exact Hd | apply H, Hc].
      * intros H c Hc. apply H. right. exact Hc.
    + split.
      * intros H. exfalso. exact (trimEnd_head d s Hd H).
      * intros H. specialize (H d (or_introl eq_refl)). congruence.
Qed.

Lemma nonBlank_lines_app (a b : string) :
  List.filter nonBlank (split newline (a ++ String newline b)%string)
  = List.filter nonBlank (split newline a)
    ++ List.filter nonBlank (split newline b).
Proof. rewrite split_app. apply List.filter_app. Qed.

Lemma nonBlank_lines_blank (w : string) :
  trim w = EmptyString -> List.filter nonBlank (split newline w) = [].
Proof.
  intros Hw. rewrite trim_blank in Hw.
  assert (H : forall piece, In piece (split newline w)
                            -> nonBlank piece = false).
  { intros piece Hp. unfold nonBlank.
    assert (Ht : trim piece = EmptyString).
    { apply trim_blank. intros c Hc. apply Hw.
      eapply split_pieces; eassumption. }
    rewrite Ht. reflexivity. }
  induction (split newline w) as [| p l IH]; [reflexivity |].
  cbn. rewrite (H p (or_introl eq_refl)). apply IH.
  intros piece Hp. apply H. right. exact Hp.
Qed.

Lemma nonBlank_comma (a b : string) :
  nonBlank (a ++ String "," b)%string = true.
Proof.
  unfold nonBlank. destruct (String.eqb_spec (trim (a ++ String "," b)) "")
    as [H |]; [| reflexivity].
  rewrite trim_blank in H.
  specialize (H ","%char). 
  assert (Hin : In ","%char (list_ascii_of_string (a ++ String "," b))).
  { clear. induction a as [| c a IH]; cbn; [left; reflexivity | right; exact IH]. }
  specialize (H Hin). discriminate H.
Qed.

Lemma list_ascii_app (a b : string) :
  list_ascii_of_string (a ++ b)
  = list_ascii_of_string a ++ list_ascii_of_string b.
Proof. induction a as [| c a IH]; cbn; [| rewrite IH]; reflexivity. Qed.

Lemma in_string_sep (c d : ascii) (a b : string) :
  In c (list_ascii_of_string (a ++ String d b))
  <-> In c (list_ascii_of_string a) \/ d = c
      \/ In c (list_ascii_of_string b).
Proof. rewrite list_ascii_app, in_app_iff. reflexivity. Qed.

Lemma loadPanoramaData_lines (parseFloat : option string -> R)
    (text text' : string) :
  List.filter nonBlank (split newline text)
  = List.filter nonBlank (split newline text') ->
  loadPanoramaData parseFloat (Some text)
  = loadPanoramaData parseFloat (Some text').
Proof.
  intros H. unfold loadPanoramaData. cbv zeta.
  rewrite H. reflexivity.
Qed.

End Lines.

(** * The claims *)

(** C1. Determinism of the round-sequence derivation.  Whatever the store
    holds besides the location list (other arrays, the variables of earlier
    generators) and wherever the list lives in it, shuffling with seed [seed] and
    taking the first five yields the same array contents; in particular a
    second call, run in the store the first call left behind, returns what the
    first returned, and the first result is still intact.  The contents are
    those of the pure function. *)
Theorem round_sequence_deterministic {A : Type} (L : list A) (seed : Z)
    (h h' : JsHeap.heap A) (locations locations' : nat) :
  JsHeap.arrays h !! locations = Some L ->
  JsHeap.arrays h' !! locations' = Some L ->
  JsHeap.result (JsHeap.getShuffledLocations locations seed h)
    = JsHeap.result (JsHeap.getShuffledLocations locations' seed h')
  /\ JsHeap.result (JsHeap.buildRounds locations seed h)
     = JsHeap.result (JsHeap.buildRounds locations' seed h')
  /\ (let first := JsHeap.buildRounds locations seed h in
      let second := JsHeap.buildRounds locations seed (snd first) in
      JsHeap.arrays (snd second) !! fst first = JsHeap.result second)
  /\ JsHeap.result (JsHeap.buildRounds locations seed h)
     = Some (take 5 (getShuffledLocations L seed)).
Proof.
  intros Hl Hl'.
  assert (Hshuf : forall (k : JsHeap.heap A) (r : nat),
             JsHeap.arrays k !! r = Some L ->
             JsHeap.result (JsHeap.getShuffledLocations r seed k)
             = Some (getShuffledLocations L seed)).
  { intros k r Hk. rewrite (JsHeap_getShuffledLocations_run k r seed L Hk).
    unfold JsHeap.result. cbn. apply lookup_snoc. }
  assert (Hrounds : forall (k : JsHeap.heap A) (r : nat),
             JsHeap.arrays k !! r = Some L ->
             JsHeap.result (JsHeap.buildRounds r seed k)
             = Some (take 5 (getShuffledLocations L seed))).
  { intros k r Hk. rewrite (JsHeap_buildRounds_run k r seed L Hk).
    unfold JsHeap.result. cbn.
    rewrite lookup_app_r by lia.
    replace (S (length (JsHeap.arrays k)) - length (JsHeap.arrays k))%nat
      with 1%nat by lia.
    reflexivity. }
  repeat split.
  - rewrite (Hshuf h locations Hl), (Hshuf h' locations' Hl'). reflexivity.
  - rewrite (Hrounds h locations Hl), (Hrounds h' locations' Hl'). reflexivity.
  - cbv zeta.
    assert (Hl1 : JsHeap.arrays (snd (JsHeap.buildRounds locations seed h))
                    !! locations = Some L).
    { rewrite (JsHeap_buildRounds_run h locations seed L Hl). cbn.
      rewrite lookup_app_l by (eapply lookup_lt_Some; eauto). exact Hl. }
    rewrite (Hrounds _ locations Hl1).
    rewrite (JsHeap_buildRounds_run _ locations seed L Hl1).
    rewrite (JsHeap_buildRounds_run h locations seed L Hl). cbn.
    rewrite lookup_app_l by (rewrite length_app; cbn; lia).
    rewrite lookup_app_r by lia.
    replace (S (length (JsHeap.arrays h)) - length (JsHeap.arrays h))%nat
      with 1%nat by lia.
    reflexivity.
  - apply Hrounds. exact Hl.
Qed.

Lemma round_sequence_deterministic_witness :
  JsHeap.result
    (JsHeap.buildRounds 0 42
       (JsHeap.Heap [["A"; "B"; "C"; "D"; "E"; "F"]%string] []))
  = JsHeap.result
      (JsHeap.buildRounds 1 42
         (JsHeap.Heap [["X"]; ["A"; "B"; "C"; "D"; "E"; "F"]]%string [7])).
Proof.
  apply (round_sequence_deterministic
           ["A"; "B"; "C"; "D"; "E"; "F"]%string 42
           (JsHeap.Heap [["A"; "B"; "C"; "D"; "E"; "F"]%string] [])
           (JsHeap.Heap [["X"]; ["A"; "B"; "C"; "D"; "E"; "F"]]%string [7])
           0%nat 1%nat eq_refl eq_refl).
Defined.

(** C2. The seeded shuffle returns a permutation of its input: the same
    elements with the same multiplicities, hence the same length and the same
    members, for every list and every seed. *)
Theorem getShuffledLocations_permutation {A : Type} (L : list A) (seed : Z) :
  getShuffledLocations L seed ≡ₚ L
  /\ length (getShuffledLocations L seed) = length L
  /\ (forall x : A, x ∈ getShuffledLocations L seed <-> x ∈ L).
Proof.
  pose proof (getShuffledLocations_perm L seed) as Hp.
  split; [exact Hp |]. split.
  - apply Permutation_length. exact Hp.
  - intros x. rewrite Hp. reflexivity.
Qed.

(** The fixture of the specification: seed 42 on six locations. *)
Example getShuffledLocations_seed_42 :
  getShuffledLocations ["A"; "B"; "C"; "D"; "E"; "F"]%string 42
  = ["B"; "A"; "E"; "F"; "C"; "D"]%string.
Proof. vm_compute. reflexivity. Qed.

(** C3, as stated, fails: the generator keeps its state in an ordinary
    number, so with seed 2^53 the first [seed + 0x6D2B79F5] is rounded to an
    even number and the shuffle of a two-element list differs from the
    32-bit reference run on the same seed. *)
Lemma getShuffledLocations_not_wraparound :
  getShuffledLocations [0; 1]%nat 9007199254740992
  <> Reference.shuffle [0; 1]%nat 9007199254740992.
Proof. vm_compute. discriminate. Qed.

(** C3, amended.  While the generator state stays an exactly representable
    integer - every seed of magnitude at most 2^52, so every 32-bit seed, with
    a list of at most 2^21 entries - the shuffle equals the reference: the
    32-bit wrap-around generator started from the seed modulo 2^32, driving
    the descending Fisher-Yates loop with exact draws. *)
Theorem getShuffledLocations_refines_reference {A : Type} (L : list A)
    (seed : Z) :
  - 2 ^ 52 <= seed <= 2 ^ 52 ->
  Z.of_nat (length L) <= 2 ^ 21 ->
  getShuffledLocations L seed = Reference.shuffle L seed.
Proof.
  intros HS HL. unfold getShuffledLocations, Reference.shuffle.
  change (2 ^ 52) with 4503599627370496 in HS.
  change (2 ^ 21) with 2097152 in HL.
  apply shuffle_loop_refines.
  - rewrite Z.mod_mod by (unfold two32; lia). reflexivity.
  - unfold two53. lia.
  - change (2 ^ 21) with 2097152. lia.
Qed.

Lemma getShuffledLocations_refines_reference_witness :
  getShuffledLocations ["A"; "B"; "C"; "D"; "E"; "F"]%string 42
  = Reference.shuffle ["A"; "B"; "C"; "D"; "E"; "F"]%string 42.
Proof.
  apply (getShuffledLocations_refines_reference
           ["A"; "B"; "C"; "D"; "E"; "F"]%string 42).
  - split; vm_compute; discriminate.
  - vm_compute. discriminate.
Defined.

(** C4, as stated, fails: with three location records the derivation does
    not come back empty, and round 1 starts (a current location is set and the
    countdown runs). *)
Lemma buildRounds_three_locations :
  let s := run [SeedResolved 42; DataLoaded threeLocations] initialState in
  (length threeLocations < 5)%nat
  /\ length (buildRounds threeLocations 42) = 3%nat
  /\ is_Some (currentLocation s)
  /\ is_Some (timer s).
Proof.
  cbv zeta. rewrite buildRounds_eq.
  rewrite mount_nonempty by discriminate.
  cbn [currentLocation timer].
  assert (Hlen : length (take 5 (getShuffledLocations threeLocations 42))
                 = 3%nat).
  { rewrite length_take, getShuffledLocations_length. reflexivity. }
  split; [cbn; lia |]. split; [exact Hlen |]. split.
  - apply lookup_lt_is_Some. rewrite Hlen. lia.
  - eauto.
Qed.

(** C4, amended.  For every seed the derived sequence is the first five
    elements of the shuffle, which are all of them when there are fewer than
    five: its length is [min 5 |L|].  Only the empty list leaves the sequence
    empty; then no round is set up, while any non-empty list starts round 1
    on the first derived location. *)
Theorem buildRounds_prefix_of_shuffle
    (allLocations : list PanoramaLocation.t) (seed_ : Z) :
  let s := run [SeedResolved seed_; DataLoaded allLocations] initialState in
  buildRounds allLocations seed_
    = take 5 (getShuffledLocations allLocations seed_)
  /\ length (buildRounds allLocations seed_)
     = Nat.min 5 (length allLocations)
  /\ (allLocations <> [] ->
      is_Some (currentLocation s)
      /\ currentLocation s = buildRounds allLocations seed_ !! 0%nat
      /\ is_Some (timer s))
  /\ (allLocations = [] ->
      buildRounds allLocations seed_ = []
      /\ currentLocation s = None /\ timer s = None
      /\ roundInitEffect s = s).
Proof.
  cbv zeta. rewrite buildRounds_eq.
  split; [reflexivity |]. split; [| split].
  - rewrite length_take, getShuffledLocations_length. reflexivity.
  - intros Hne. rewrite mount_nonempty by assumption.
    cbn [currentLocation timer]. split; [| split].
    + apply lookup_lt_is_Some.
      rewrite length_take, getShuffledLocations_length.
      destruct allLocations; [contradiction | cbn; lia].
    + reflexivity.
    + eauto.
  - intros ->. repeat split; reflexivity.
Qed.

(** C5. Both variants of [calculateScore] are the one functional form of the
    specification - haversine distance on a fixed radius, metres through the
    fixed mile-to-metre factor, points [max 0 (floor (maxPoints * exp (- k *
    distance / scale)))] - and differ in constants only: radius 3958.8, k 1,
    scale 0.9 in [page.tsx]; radius 500, k 10, scale 0.5 in [part_001]. *)
Theorem calculateScore_functional_form (actual guess : R * R) :
  calculateScore actual guess = score_form page_constants actual guess
  /\ calculateScore_part_001 actual guess
     = score_form part_001_constants actual guess
  /\ maxPoints page_constants = maxPoints part_001_constants
  /\ metersPerMile page_constants = metersPerMile part_001_constants.
Proof.
  split; [apply calculateScore_form |].
  split; [apply calculateScore_part_001_form |].
  split; reflexivity.
Qed.

Section ScoreClaim.
  Import PrimFloat.

(** C6, as stated, fails: the points are not at least 0 for every input
    pair.  A CSV row without numeric fields gives the coordinates (NaN, NaN);
    scored against the fallback guess, whatever the engine's library returns,
    both the points and the distance are NaN, and NaN is not at least 0:
    [Math.max(0, score)] does not clamp it.  The same happens between numbers,
    close to the antipode: for (2.5, 0) and (-2.5, 180), with the sine and
    cosine values a correctly rounding library returns, the haversine term is
    1 + 2^-52 and [Math.sqrt(1 - a)] is NaN. *)
Lemma calculateScore_nan_points :
  let row := (nan, nan) in
  let guess := Binary64.fallbackPosition in
  (forall M : Binary64.Libm,
      Binary64.calculateScore M row guess = (nan, nan))
  /\ (0 <=? nan)%float = false
  /\ (forall M : Binary64.Libm,
        Binary64.sin_approx M (-0x1.657184ae74487p-5)%float
          = (-0x1.65547c4694e11p-5)%float ->
        Binary64.sin_approx M 0x1.921fb54442d18p+0%float = 1%float ->
        Binary64.cos_approx M 0x1.657184ae74487p-5%float
          = 0x1.ff833f9da45f7p-1%float ->
        Binary64.cos_approx M (-0x1.657184ae74487p-5)%float
          = 0x1.ff833f9da45f7p-1%float ->
        Binary64.haversineTerm M (2.5, 0)%float (-2.5, 180)%float
          = 0x1.0000000000001p+0%float
        /\ Binary64.calculateScore M (2.5, 0)%float (-2.5, 180)%float
           = (nan, nan)).
Proof.
  cbv zeta. split; [| split].
  - intros M. apply calculateScore_term_nan.
    apply haversineTerm_nan. reflexivity.
  - reflexivity.
  - apply calculateScore_near_antipode.
Qed.


End ScoreClaim.

(** C7, as stated, fails: in the first round of a session, before any map
    click, neither the Confirm click nor the Space key raises a prompt. *)
Lemma explicit_guess_without_selection_no_prompt :
  let s := run [SeedResolved 42; DataLoaded threeLocations] initialState in
  selectedPosition s = None
  /\ alerts (step ConfirmClick s) = []
  /\ alerts (step SpaceKey s) = [].
Proof.
  cbv zeta. rewrite mount_nonempty by discriminate.
  match goal with |- context [step ConfirmClick ?s] =>
    destruct (no_selection_ignored s eq_refl) as [-> ->] end.
  repeat split.
Qed.

(** C7, amended.  A Confirm click or a Space key press while no position is
    selected changes nothing at all (score, results, round, countdown, phase
    included) - and raises no prompt: in every state a session reaches no
    alert has been shown and the phase is still "exploring", so the prompt
    inside [makeGuess], which asks for phase "guessing", is never reached. *)
Theorem explicit_guess_without_selection_ignored (s : state) :
  selectedPosition s = None ->
  step ConfirmClick s = s
  /\ step SpaceKey s = s
  /\ (reachable s -> alerts s = [] /\ gamePhase s = "exploring"%string).
Proof.
  intros Hsel. destruct (no_selection_ignored s Hsel) as [Hc Hk].
  split; [exact Hc |]. split; [exact Hk |].
  intros Hr. destruct (inv_phase s (reachable_invariant s Hr)). auto.
Qed.

Lemma explicit_guess_without_selection_ignored_witness :
  let s := run [SeedResolved 42; DataLoaded threeLocations] initialState in
  (mainShown s = true /\ is_Some (currentLocation s) /\ is_Some (timer s)
   /\ showResults s = false /\ timeLeft s = 300)
  /\ (step ConfirmClick s = s
      /\ step SpaceKey s = s
      /\ (reachable s ->
          alerts s = [] /\ gamePhase s = "exploring"%string)).
Proof.
  intros s. split.
  - split; [reflexivity |]. split; [eexists; reflexivity |].
    split; [eexists; reflexivity |]. split; reflexivity.
  - apply (explicit_guess_without_selection_ignored s). reflexivity.
Defined.

(** C8, as stated, fails.  [makeGuess] has no guard of its own: run a second
    time on the state it left, it appends a second result for round 1 and adds
    the 5000 points again.  And through the page itself a panorama is scored
    twice: with round 1 resolved by a guess on the spot (5000 points) and
    round 2 left to its countdown, the interval's [makeGuess] scores the
    panorama and the selection of round 1 once more, under round number 2; the
    score is 10000 and the panorama of round 2 was never compared. *)
Lemma resolution_counts_again :
  let guess := (28.6024, -81.2001)%R in
  let s :=
    run [SeedResolved 42; DataLoaded fiveLocations; MapClick false guess]
        initialState in
  (let s1 := makeGuess (capture s) s in
   let s2 := makeGuess (capture s) s1 in
   resolvedRounds s1 = [1%nat] /\ score s1 = 5000
   /\ resolvedRounds s2 = [1%nat; 1%nat] /\ score s2 = 10000)
  /\ (let t :=
        run ([ConfirmClick; NextRoundClick] ++ replicate 300 Tick) s in
      resolvedRounds t = [1%nat; 2%nat]
      /\ map RoundResult.location (roundResults t)
         = ["UCF Location 1"; "UCF Location 1"]%string
      /\ map RoundResult.score (roundResults t) = [5000; 5000]
      /\ score t = 10000
      /\ option_map PanoramaLocation.name (currentLocation t)
         = Some "UCF Location 5"%string).
Proof.
  cbv zeta.
  set (guess := (28.6024, -81.2001)%R).
  set (pano := samplePano "1" 28.6024 (-81.2001)).
  set (s := run [SeedResolved 42; DataLoaded fiveLocations;
                 MapClick false guess] initialState).
  assert (Hr : reachable s) by (eexists; reflexivity).
  pose proof (reachable_invariant s Hr) as Hinv.
  assert (Hcur : currentLocation s = Some pano) by reflexivity.
  assert (Hsel : selectedPosition s = Some guess) by reflexivity.
  assert (Hrr : roundResults s = []) by reflexivity.
  assert (Hsc : score s = 0) by reflexivity.
  assert (Hrd : round s = 1%nat) by reflexivity.
  assert (Hpts : fst (calculateScore (PanoramaLocation.coordinates pano) guess)
                 = 5000).
  { change (PanoramaLocation.coordinates pano) with guess.
    rewrite calculateScore_same. reflexivity. }
  set (c := capture s).
  assert (Hph : c_gamePhase c = "exploring"%string)
    by (apply (inv_phase s Hinv)).
  assert (Hcc : c_currentLocation c = Some pano) by exact Hcur.
  assert (Hcs : c_selectedPosition c = Some guess) by exact Hsel.
  assert (Hcr : c_round c = 1%nat) by exact Hrd.
  assert (Hg1 : forall s0,
             roundResults (makeGuess c s0)
             = roundResults s0 ++
                 [RoundResult.Make 1 "UCF Location 1" guess guess 5000
                    (roughMeters guess guess)]
             /\ score (makeGuess c s0) = score s0 + 5000).
  { intros s0. pose proof (makeGuess_ledger c s0 Hph) as H.
    rewrite Hcc in H. cbv zeta in H. rewrite Hcs, Hcr in H.
    change (default _ (Some guess)) with guess in H. rewrite Hpts in H.
    destruct H as (H1 & H2 & _). split; [exact H1 | exact H2]. }
  assert (Hconf : step ConfirmClick s = makeGuess c s).
  { apply step_same; [reflexivity | reflexivity | apply makeGuess_frame
                     | apply makeGuess_frame]. }
  split.
  - destruct (Hg1 s) as [R1 S1].
    destruct (Hg1 (makeGuess c s)) as [R2 S2].
    unfold resolvedRounds. rewrite R2, S2, R1, S1, Hrr, Hsc.
    repeat split.
  - rewrite run_app, run_cons, Hconf, run_cons.
    change (run [] ?x) with x.
    set (s1 := makeGuess c s).
    assert (Hr1 : reachable s1).
    { exists [SeedResolved 42; DataLoaded fiveLocations;
              MapClick false guess; ConfirmClick].
      subst s1. rewrite <- Hconf.
      change [SeedResolved 42; DataLoaded fiveLocations;
              MapClick false guess; ConfirmClick]
        with ([SeedResolved 42; DataLoaded fiveLocations;
               MapClick false guess] ++ [ConfirmClick]).
      rewrite run_app. fold s. unfold run at 1. cbn [foldl]. reflexivity. }
    pose proof (reachable_invariant s1 Hr1) as Hinv1.
    destruct (Hg1 s) as [R1 S1]. fold s1 in R1, S1.
    destruct (makeGuess_frame c s) as [F1 F2]. fold s1 in F1, F2.
    assert (Hshow : showResults s1 = true).
    { pose proof (makeGuess_ledger c s Hph) as H. rewrite Hcc in H.
      cbv zeta in H. apply H. }
    assert (Hsel1 : selectedPosition s1 = Some guess).
    { subst s1. rewrite (makeGuess_exploring c s Hph), Hcc. exact Hsel. }
    assert (Hcur1 : currentLocation s1 = Some pano).
    { subst s1. rewrite (makeGuess_exploring c s Hph), Hcc. exact Hcur. }
    assert (Hmain1 : mainShown s1 = true).
    { subst s1. rewrite (makeGuess_exploring c s Hph), Hcc. reflexivity. }
    rewrite (step_NextRoundClick_run s1 Hinv1)
      by (unfold nextShown; rewrite ?Hmain1, ?Hshow, ?F1, ?Hrd;
          (reflexivity || lia)).
    erewrite run_ticks_timeout; [| reflexivity | reflexivity | lia].
    rewrite makeGuess_exploring by (apply (inv_phase s1 Hinv1)).
    cbn [c_currentLocation c_selectedPosition c_round].
    rewrite Hcur1, Hsel1. cbv zeta.
    change (default _ (Some guess)) with guess. rewrite Hpts.
    unfold resolvedRounds, setTimeLeft, clearInterval, setTimer.
    cbn [roundResults score currentLocation].
    rewrite R1, S1, F1, F2, Hrr, Hsc, Hrd.
    cbn [app map RoundResult.round RoundResult.location RoundResult.score].
    repeat split.
Qed.


(** C9 describes the intended behaviour, and the code does the opposite.
    Played on one panorama at (28.6, -81.2) with a guess at (28.61, -81.2),
    the result [makeGuess] stores carries the distance 1110: the degree-scaled
    "rough meters".  The haversine figure [calculateScore] returned for it,
    above 1111, is dropped.  And so for every result of every session: its
    distance is the rough one. *)
Theorem makeGuess_stores_rough_distance :
  let guess := (28.61, -81.2)%R in
  let pano := samplePano "1" 28.6 (-81.2) in
  let s :=
    run [SeedResolved 42; DataLoaded [pano]; MapClick false guess;
         ConfirmClick] initialState in
  map RoundResult.distance (roundResults s) = [1110%R]
  /\ (1111 < snd (calculateScore (PanoramaLocation.coordinates pano) guess))%R
  /\ (forall trace : list event,
         Forall (fun r => RoundResult.distance r =
                            roughMeters (RoundResult.actualPosition r)
                                        (RoundResult.guessPosition r))
                (roundResults (run trace initialState))).
Proof.
  cbv zeta. split; [| split].
  - set (pano := samplePano "1" 28.6 (-81.2)).
    set (guess := (28.61, -81.2)%R).
    change (run [SeedResolved 42; DataLoaded [pano]; MapClick false guess;
                 ConfirmClick] initialState)
      with (step ConfirmClick
              (step (MapClick false guess)
                 (run [SeedResolved 42; DataLoaded [pano]] initialState))).
    rewrite mount_nonempty by discriminate.
    change (take 5 (getShuffledLocations [pano] 42)) with [pano].
    rewrite step_MapClick_run by reflexivity.
    rewrite (step_ConfirmClick_run _ pano guess) by reflexivity.
    unfold setSelectedPosition.
    cbn [map app roundResults RoundResult.distance]. f_equal.
    apply roughMeters_meridian_example.
  - apply haversine_meters_meridian_example.
  - intros trace.
    apply (inv_rough _ (run_invariant trace _ initialState_invariant)).
Qed.

(** C10. The call leaves the caller's array as it was: the array object
    [locations] refers to holds the same elements in the same order
    afterwards, the array returned is a different, newly allocated object, and
    no array that existed before the call has changed. *)
Theorem getShuffledLocations_preserves_input {A : Type} (L : list A)
    (seed : Z) (h : JsHeap.heap A) (locations : nat) :
  JsHeap.arrays h !! locations = Some L ->
  let out := JsHeap.getShuffledLocations locations seed h in
  JsHeap.arrays (snd out) !! locations = Some L
  /\ fst out <> locations
  /\ JsHeap.arrays h !! fst out = None
  /\ (forall r : nat, (r < length (JsHeap.arrays h))%nat ->
                      JsHeap.arrays (snd out) !! r = JsHeap.arrays h !! r)
  /\ JsHeap.result out = Some (getShuffledLocations L seed).
Proof.
  intros Hl. cbv zeta.
  rewrite (JsHeap_getShuffledLocations_run h locations seed L Hl).
  unfold JsHeap.result. cbn [fst snd JsHeap.arrays].
  pose proof (lookup_lt_Some _ _ _ Hl) as Hlt.
  split; [| split; [| split; [| split]]].
  - rewrite lookup_app_l by exact Hlt. exact Hl.
  - lia.
  - apply lookup_ge_None. lia.
  - intros r Hr. apply lookup_app_l. exact Hr.
  - apply lookup_snoc.
Qed.

Lemma getShuffledLocations_preserves_input_witness :
  let h := JsHeap.Heap [["A"; "B"; "C"; "D"; "E"; "F"]%string] [] in
  let out := JsHeap.getShuffledLocations 0 42 h in
  JsHeap.arrays (snd out) !! 0%nat = Some ["A"; "B"; "C"; "D"; "E"; "F"]%string
  /\ fst out <> 0%nat
  /\ JsHeap.arrays h !! fst out = None
  /\ (forall r : nat, (r < length (JsHeap.arrays h))%nat ->
                      JsHeap.arrays (snd out) !! r = JsHeap.arrays h !! r)
  /\ JsHeap.result out
     = Some (getShuffledLocations ["A"; "B"; "C"; "D"; "E"; "F"]%string 42).
Proof.
  exact (getShuffledLocations_preserves_input
           ["A"; "B"; "C"; "D"; "E"; "F"]%string 42
           (JsHeap.Heap [["A"; "B"; "C"; "D"; "E"; "F"]%string] [])
           0%nat eq_refl).
Defined.

(** * Further properties *)

(** X2. Rounds are resolved in order and without gaps: the stored results are
    those of rounds 1, 2, ... up to the current round when its results are on
    screen, up to the one before otherwise; the round number stays between 1
    and 5; the results are on screen exactly when the current round has a
    stored result.  The game-over screen therefore lists rounds 1 to 5, each
    once. *)
Theorem rounds_resolved_in_order (trace : list event) :
  let s := run trace initialState in
  resolvedRounds s
    = seq 1 (if showResults s then round s else (round s - 1)%nat)
  /\ (1 <= round s <= 5)%nat
  /\ (showResults s = true <-> round s ∈ resolvedRounds s)
  /\ (gameOver s = true -> resolvedRounds s = [1; 2; 3; 4; 5]%nat).
Proof.
  cbv zeta. destruct (run_both trace) as [Hinv Hpg].
  pose proof (pg_rounds _ Hpg) as Hrs. pose proof (inv_round _ Hinv) as Hr.
  split; [exact Hrs |]. split; [exact Hr |]. split; [split |].
  - intros Hs. rewrite Hrs, Hs. apply list_elem_of_In, in_seq. lia.
  - intros Hin. apply (inv_resolved _ Hinv Hin).
  - intros Hg. destruct (pg_over _ Hpg Hg) as [H5 Hs].
    rewrite Hrs, Hs, H5. reflexivity.
Qed.

(** X3. The countdown: the time left is always between 0 and 300 seconds; an
    interval is running only while the round is open, and then at least one
    second is left; once the results are on screen no interval runs. *)
Theorem countdown_bounds (trace : list event) :
  let s := run trace initialState in
  0 <= timeLeft s <= 300
  /\ (is_Some (timer s) -> 1 <= timeLeft s /\ showResults s = false)
  /\ (showResults s = true -> timer s = None).
Proof.
  cbv zeta. destruct (run_both trace) as [Hinv Hpg].
  split; [apply (pg_time _ Hpg) |]. split.
  - intros Ht. split; [apply (pg_running _ Hpg Ht) |].
    apply running_unresolved; assumption.
  - intros Hs. destruct (timer _) as [c |] eqn:Ht; [| reflexivity].
    assert (Hf : showResults (run trace initialState) = false).
    { apply running_unresolved; try assumption. rewrite Ht. eauto. }
    congruence.
Qed.

(** X4. What is on show.  Once a round sequence has been derived, it is the
    first five of the seeded shuffle of the loaded list, for the session's
    seed, and the panorama of round [r] is its [r]-th element - whatever the
    player did in between, Play Again included. *)
Theorem current_location_from_seed (trace : list event) :
  let s := run trace initialState in
  gameLocations s <> [] ->
  exists seed_ : Z,
    seed s = Some seed_
    /\ gameLocations s = take 5 (getShuffledLocations (locations s) seed_)
    /\ currentLocation s
       = take 5 (getShuffledLocations (locations s) seed_) !! (round s - 1)%nat.
Proof.
  cbv zeta. intros Hne. destruct (run_both trace) as [Hinv Hpg].
  destruct (pg_derived _ Hpg Hne) as (sd & Hsd & Hgl).
  exists sd. split; [exact Hsd |]. split; [exact Hgl |].
  rewrite <- Hgl. apply (pg_current _ Hpg Hne).
Qed.

Lemma current_location_from_seed_witness :
  exists seed_ : Z,
    seed (run fullGame initialState) = Some seed_
    /\ gameLocations (run fullGame initialState)
       = take 5 (getShuffledLocations
                   (locations (run fullGame initialState)) seed_)
    /\ currentLocation (run fullGame initialState)
       = take 5 (getShuffledLocations
                   (locations (run fullGame initialState)) seed_)
           !! (round (run fullGame initialState) - 1)%nat.
Proof.
  apply (current_location_from_seed fullGame).
  vm_compute. discriminate.
Defined.

(** X5. A countdown that runs out in the first round of a session stores
    nothing.  The interval of round 1 closed over the render in which no
    current location was set yet, so the [makeGuess] it calls returns early:
    after 300 firings the clock is at 0 and stopped, no result is stored, the
    score is 0 and the round is still open. *)
Theorem first_round_timeout_stores_nothing
    (allLocations : list PanoramaLocation.t) (seed_ : Z) :
  allLocations <> [] ->
  let s0 := run [SeedResolved seed_; DataLoaded allLocations] initialState in
  let s := run (replicate 300 Tick) s0 in
  roundResults s = [] /\ score s = 0 /\ showResults s = false
  /\ timeLeft s = 0 /\ timer s = None /\ round s = 1%nat
  /\ currentLocation s = currentLocation s0.
Proof.
  intros Hne. cbv zeta. rewrite mount_nonempty by exact Hne.
  erewrite run_ticks_timeout; [| reflexivity | reflexivity | lia].
  rewrite makeGuess_exploring by reflexivity.
  repeat split.
Qed.

Lemma first_round_timeout_stores_nothing_witness :
  let s0 := run [SeedResolved 42; DataLoaded threeLocations] initialState in
  let s := run (replicate 300 Tick) s0 in
  roundResults s = [] /\ score s = 0 /\ showResults s = false
  /\ timeLeft s = 0 /\ timer s = None /\ round s = 1%nat
  /\ currentLocation s = currentLocation s0.
Proof.
  apply (first_round_timeout_stores_nothing threeLocations 42).
  discriminate.
Defined.

(** X6. A countdown that runs out in a later round scores the round before
    it again.  The interval Next starts closed over the render of the click:
    the location and the selection of the round just resolved.  After 300
    firings the result stored for the new round carries the previous
    location's name and position, the previous selection (or the fallback
    coordinate) as the guess, and their points, which are added to the
    score. *)
Theorem later_round_timeout_replays_previous (s : state)
    (previous : PanoramaLocation.t) :
  reachable s -> nextShown s = true -> (round s < 5)%nat ->
  currentLocation s = Some previous ->
  let actual := PanoramaLocation.coordinates previous in
  let guess := default (28.6024, -81.2001)%R (selectedPosition s) in
  let points := fst (calculateScore actual guess) in
  let s' := run (NextRoundClick :: replicate 300 Tick) s in
  roundResults s' =
    roundResults s ++
      [RoundResult.Make (S (round s)) (PanoramaLocation.name previous)
         actual guess points (roughMeters actual guess)]
  /\ score s' = score s + points
  /\ showResults s' = true
  /\ currentLocation s' = gameLocations s !! round s.
Proof.
  intros Hreach Hn Hr Hcur. cbv zeta.
  pose proof (reachable_invariant s Hreach) as Hinv.
  rewrite run_cons, (step_NextRoundClick_run s Hinv Hn Hr).
  erewrite run_ticks_timeout; [| reflexivity | reflexivity | lia].
  rewrite makeGuess_exploring by (apply (inv_phase s Hinv)).
  cbn [c_currentLocation]. rewrite Hcur. repeat split.
Qed.

Lemma later_round_timeout_replays_previous_witness :
  let s :=
    run [SeedResolved 42; DataLoaded fiveLocations;
         MapClick false (28.6, -81.2)%R; ConfirmClick] initialState in
  let previous := samplePano "1" 28.6024 (-81.2001) in
  let actual := PanoramaLocation.coordinates previous in
  let guess := default (28.6024, -81.2001)%R (selectedPosition s) in
  let points := fst (calculateScore actual guess) in
  let s' := run (NextRoundClick :: replicate 300 Tick) s in
  roundResults s' =
    roundResults s ++
      [RoundResult.Make (S (round s)) (PanoramaLocation.name previous)
         actual guess points (roughMeters actual guess)]
  /\ score s' = score s + points
  /\ showResults s' = true
  /\ currentLocation s' = gameLocations s !! round s.
Proof.
  apply (later_round_timeout_replays_previous
           (run [SeedResolved 42; DataLoaded fiveLocations;
                 MapClick false (28.6, -81.2)%R; ConfirmClick] initialState)
           (samplePano "1" 28.6024 (-81.2001))).
  - eexists. reflexivity.
  - reflexivity.
  - vm_compute. lia.
  - reflexivity.
Defined.

(** X7. Play Again replays the same five locations.  From the game-over
    screen it resets score, round, results and countdown and starts round 1
    on the first location of the unchanged sequence, with the seed unchanged;
    the random location [restartGame] picks is overwritten by the round
    effect before it is ever on show. *)
Theorem play_again_replays_sequence (s : state) (randomIndex : nat) :
  reachable s -> gameOver s = true ->
  let s' := step (PlayAgainClick randomIndex) s in
  score s' = 0 /\ round s' = 1%nat /\ roundResults s' = []
  /\ gameOver s' = false /\ showResults s' = false
  /\ selectedPosition s' = None /\ timeLeft s' = 300 /\ is_Some (timer s')
  /\ seed s' = seed s /\ gameLocations s' = gameLocations s
  /\ currentLocation s' = gameLocations s !! 0%nat.
Proof.
  intros Hreach Hg. cbv zeta.
  rewrite (step_PlayAgainClick_run s randomIndex
             (reachable_invariant s Hreach) (reachable_progress s Hreach) Hg).
  cbn. repeat split. eauto.
Qed.

Lemma play_again_replays_sequence_witness :
  let s := run fullGame initialState in
  let s' := step (PlayAgainClick 3) s in
  score s' = 0 /\ round s' = 1%nat /\ roundResults s' = []
  /\ gameOver s' = false /\ showResults s' = false
  /\ selectedPosition s' = None /\ timeLeft s' = 300 /\ is_Some (timer s')
  /\ seed s' = seed s /\ gameLocations s' = gameLocations s
  /\ currentLocation s' = gameLocations s !! 0%nat.
Proof.
  apply (play_again_replays_sequence (run fullGame initialState) 3).
  - eexists. reflexivity.
  - reflexivity.
Defined.

(** X8. Game over is final.  On the game-over screen no event but Play Again
    changes anything: the seed and data promises have resolved, the map and
    the buttons of the round are not rendered, the Space listener sees the
    results flag, and no interval is running. *)
Theorem game_over_is_final (s : state) (e : event) :
  reachable s -> gameOver s = true ->
  (forall randomIndex, e <> PlayAgainClick randomIndex) ->
  step e s = s.
Proof.
  intros Hreach Hg He.
  pose proof (reachable_invariant s Hreach) as Hinv.
  pose proof (reachable_progress s Hreach) as Hpg.
  destruct (pg_over s Hpg Hg) as [H5 Hs].
  assert (Hne : gameLocations s <> []).
  { apply (invariant_playing s Hinv). auto. }
  destruct (inv_started s Hinv Hne) as [[sd Hsd] Hload].
  assert (Ht : timer s = None).
  { destruct (timer s) eqn:Ht; [| reflexivity].
    pose proof (running_unresolved s Hinv Hpg ltac:(rewrite Ht; eauto)).
    congruence. }
  assert (Hh : handle e s = s).
  { destruct e; cbn.
    - rewrite Hsd. reflexivity.
    - rewrite Hload. reflexivity.
    - unfold mainShown. rewrite Hg. reflexivity.
    - unfold confirmEnabled, mainShown. rewrite Hg. reflexivity.
    - unfold handleKeyDown_Space. rewrite Hs, andb_false_r. reflexivity.
    - rewrite Ht. reflexivity.
    - unfold nextShown, mainShown. rewrite Hg. reflexivity.
    - exfalso. apply (He randomIndex). reflexivity. }
  assert (Hc : changesSeedOrLocations e s = false).
  { destruct e; cbn; try reflexivity.
    - rewrite Hsd. reflexivity.
    - exact Hload. }
  apply step_same; auto.
Qed.

Lemma game_over_is_final_witness :
  step Tick (run fullGame initialState) = run fullGame initialState.
Proof.
  apply (game_over_is_final (run fullGame initialState) Tick).
  - eexists. reflexivity.
  - reflexivity.
  - intros randomIndex. discriminate.
Defined.

(** X9. The shuffle stays inside its array.  Every value the generator
    returns is [u / 2^32] with [0 <= u < 2^32], so in [0, 1); every index drawn
    for position [i] is at most [i]; and run from [length - 1], the loop never
    reads an element that is not there, so the copy never gets a hole or
    grows. *)
Theorem shuffle_reads_in_bounds {A : Type} (L : list A) (seed : Z) :
  shuffle_loop_checked (length L - 1) seed L
    = Some (shuffle_loop (length L - 1) seed L)
  /\ (forall (state : Z) (i : nat),
        0 <= fst (mulberry32_call state) < two32
        /\ (draw_index (fst (mulberry32_call state)) i <= i)%nat).
Proof.
  split.
  - destruct L as [| a L]; [reflexivity |].
    apply shuffle_loop_checked_total. cbn. lia.
  - intros state i. unfold mulberry32_call. cbn [fst]. split.
    + apply mulberry32_mix_range.
    + apply draw_index_le.
Qed.

(** X10. Seeds that agree modulo 2^32 start the same game: within the exact
    range (magnitude at most 2^52, at most 2^21 locations) the bit operators
    see only the low 32 bits of the state, so two such seeds shuffle every
    list alike. *)
Theorem seeds_congruent_shuffle_alike {A : Type} (L : list A)
    (seed seed' : Z) :
  - 2 ^ 52 <= seed <= 2 ^ 52 ->
  - 2 ^ 52 <= seed' <= 2 ^ 52 ->
  seed mod two32 = seed' mod two32 ->
  Z.of_nat (length L) <= 2 ^ 21 ->
  getShuffledLocations L seed = getShuffledLocations L seed'.
Proof.
  intros Hs Hs' Hmod HL. unfold getShuffledLocations.
  change (2 ^ 52) with 4503599627370496 in *.
  change (2 ^ 21) with 2097152 in HL.
  rewrite (shuffle_loop_refines _ seed (seed mod two32)),
          (shuffle_loop_refines _ seed' (seed mod two32)).
  - reflexivity.
  - rewrite Z.mod_mod by (unfold two32; lia). symmetry. exact Hmod.
  - unfold two53. lia.
  - change (2 ^ 21) with 2097152. lia.
  - rewrite Z.mod_mod by (unfold two32; lia). reflexivity.
  - unfold two53. lia.
  - change (2 ^ 21) with 2097152. lia.
Qed.

Lemma seeds_congruent_shuffle_alike_witness :
  getShuffledLocations ["A"; "B"; "C"; "D"; "E"; "F"]%string 42
  = getShuffledLocations ["A"; "B"; "C"; "D"; "E"; "F"]%string 4294967338.
Proof.
  apply (seeds_congruent_shuffle_alike
           ["A"; "B"; "C"; "D"; "E"; "F"]%string 42 4294967338).
  - split; vm_compute; discriminate.
  - split; vm_compute; discriminate.
  - reflexivity.
  - vm_compute. discriminate.
Defined.

(** X11. A seed the session draws itself is an integer between 0 and 999999,
    a 32-bit seed: for it the shuffle of any list of at most 2^21 locations is
    the one of the 32-bit reference generator. *)
Theorem generateSeed_in_range {A : Type} (random : R) (L : list A) :
  (0 <= random < 1)%R ->
  Z.of_nat (length L) <= 2 ^ 21 ->
  0 <= generateSeed random <= 999999
  /\ getShuffledLocations L (generateSeed random)
     = Reference.shuffle L (generateSeed random).
Proof.
  intros Hr HL.
  assert (Hseed : 0 <= generateSeed random <= 999999).
  { unfold generateSeed, Math_floor.
    pose proof (Zfloor_bound (random * 1000000)) as [Hlo Hhi].
    split.
    - apply Zfloor_lub. cbn. lra.
    - assert (IZR (Zfloor (random * 1000000)) < 1000000)%R by lra.
      apply lt_IZR in H. lia. }
  split; [exact Hseed |].
  unfold getShuffledLocations, Reference.shuffle.
  change (2 ^ 21) with 2097152 in HL.
  apply shuffle_loop_refines.
  - rewrite Z.mod_mod by (unfold two32; lia). reflexivity.
  - unfold two53. lia.
  - change (2 ^ 21) with 2097152. lia.
Qed.

Lemma generateSeed_in_range_witness :
  0 <= generateSeed 0.5 <= 999999
  /\ getShuffledLocations ["A"; "B"; "C"]%string (generateSeed 0.5)
     = Reference.shuffle ["A"; "B"; "C"]%string (generateSeed 0.5).
Proof.
  apply (generateSeed_in_range 0.5%R ["A"; "B"; "C"]%string).
  - split; lra.
  - vm_compute. discriminate.
Defined.

(** X13. The score does not depend on which point is called the actual one:
    swapping actual and guessed position gives the same points and the same
    distance, in both variants, and the same rough metres. *)
Theorem calculateScore_symmetric (p q : R * R) :
  calculateScore p q = calculateScore q p
  /\ calculateScore_part_001 p q = calculateScore_part_001 q p
  /\ roughMeters p q = roughMeters q p.
Proof.
  rewrite !calculateScore_form, !calculateScore_part_001_form.
  unfold score_form. rewrite !(haversine_sym _ p q).
  split; [reflexivity |]. split; [reflexivity |]. apply roughMeters_sym.
Qed.

(** X14. The variant [part_001] is the stricter one: for the same pair it never
    awards more points than [page.tsx], and the distance it reports is that
    of [page.tsx] scaled by 500 / 3958.8, the ratio of the two radius
    constants. *)
Theorem part_001_is_stricter (actual guess : R * R) :
  fst (calculateScore_part_001 actual guess)
    <= fst (calculateScore actual guess)
  /\ snd (calculateScore_part_001 actual guess)
     = (snd (calculateScore actual guess) * (500 / 3958.8))%R.
Proof.
  rewrite calculateScore_form, calculateScore_part_001_form.
  unfold score_form, decay.
  cbn [fst snd radius metersPerMile maxPoints k scale page_constants
       part_001_constants].
  assert (Hh : haversine 500 actual guess
               = (haversine 3958.8 actual guess * (500 / 3958.8))%R).
  { unfold haversine. lra. }
  pose proof (haversine_bounds 3958.8 actual guess ltac:(lra)) as [Hlo _].
  split.
  - apply Z.max_le_compat_l, Zfloor_le.
    apply Rmult_le_compat_l; [lra |].
    set (h := haversine 3958.8 actual guess) in *.
    assert (Harg : (- (10 * haversine 500 actual guess / 0.5)
                    <= - (1 * h / 0.9))%R).
    { rewrite Hh. lra. }
    destruct Harg as [Hlt | Heq].
    + left. apply exp_increasing. exact Hlt.
    + rewrite Heq. right. reflexivity.
  - rewrite Hh. lra.
Qed.

(** X15. The countdown is always shown as [m:ss].  In every state a session
    reaches the time left is [60 m + 10 a + b] with [m <= 5], [a <= 5] and
    [b <= 9], and [formatTime] prints it as the digit [m], a colon and the
    digits [a] and [b]: four characters, the seconds padded to two. *)
Theorem timer_display_shape (trace : list event) :
  let t := timeLeft (run trace initialState) in
  exists m a b : Z,
    0 <= m <= 5 /\ 0 <= a <= 5 /\ 0 <= b <= 9
    /\ t = 60 * m + 10 * a + b
    /\ formatTime t
       = String (digit m) (String ":" (String (digit a) (String (digit b) ""))).
Proof.
  intros t.
  assert (Ht : 0 <= t <= 300).
  { apply pg_time, reachable_progress. exists trace. reflexivity. }
  exists (t / 60), (t mod 60 / 10), (t mod 10).
  split; [| split; [| split; [| split]]].
  - split; [apply Z.div_pos; lia |]. apply Z.div_le_upper_bound; lia.
  - pose proof (Z.mod_pos_bound t 60 ltac:(lia)).
    split; [apply Z.div_pos; lia |].
    apply Z.lt_succ_r, Z.div_lt_upper_bound; lia.
  - pose proof (Z.mod_pos_bound t 10 ltac:(lia)). lia.
  - pose proof (Z.div_mod t 60 ltac:(lia)).
    pose proof (Z.div_mod (t mod 60) 10 ltac:(lia)).
    pose proof (Z.div_mod t 10 ltac:(lia)).
    pose proof (Z.mod_pos_bound t 10 ltac:(lia)).
    pose proof (Z.mod_pos_bound (t mod 60) 10 ltac:(lia)).
    lia.
  - apply formatTime_shape. exact Ht.
Qed.

(** X16. The rounding edge of the distance display.  A distance from 0 up to,
    not including, 1000 is printed as a whole number of meters between 0 and
    1000, at most half a meter off; the number printed is 1000 exactly from
    999.5 on, so the meters branch can print [1000 meters] although it is
    taken below 1000 only. *)
Theorem formatDistance_meters_edge (distance : R) :
  (0 <= distance < 1000)%R ->
  exists n : Z,
    formatDistance (Some distance) = (ToString n ++ " meters")%string
    /\ 0 <= n <= 1000
    /\ (Rabs (IZR n - distance) <= / 2)%R
    /\ (n = 1000 <-> (999.5 <= distance)%R).
Proof.
  intros [Hlo Hhi]. exists (Math_round distance).
  pose proof (Math_round_spec distance) as [H1 H2].
  split; [| split; [| split]].
  - unfold formatDistance. destruct (Rlt_dec distance 1000); [reflexivity | lra].
  - split.
    + assert (-1 < IZR (Math_round distance))%R by lra.
      apply lt_IZR in H. lia.
    + assert (IZR (Math_round distance) < 1001)%R by lra.
      apply lt_IZR in H. lia.
  - apply Rabs_le. lra.
  - split.
    + intros Hn. rewrite Hn in H1. lra.
    + intros Hd.
      assert (999 < IZR (Math_round distance))%R by lra.
      apply lt_IZR in H.
      assert (IZR (Math_round distance) < 1001)%R by lra.
      apply lt_IZR in H0. lia.
Qed.

Lemma formatDistance_meters_edge_witness :
  exists n : Z,
    formatDistance (Some 999.5%R) = (ToString n ++ " meters")%string
    /\ 0 <= n <= 1000
    /\ (Rabs (IZR n - 999.5) <= / 2)%R
    /\ (n = 1000 <-> (999.5 <= 999.5)%R).
Proof.
  apply (formatDistance_meters_edge 999.5%R). split; lra.
Defined.



(** X18. Reading back the CSV.  For a file in the format [setup.js] writes (a
    header line that is not blank, then one line [id,lat,lng] per panorama,
    the fields free of commas and newlines) the loader returns one location
    per row, in the order of the file: the row's id, the name
    [UCF Location k] with [k] counting the rows from 1, the image path built
    from the id, and the two numbers parsed from the second and third
    field.  The header and the final newline give no location. *)
Theorem loadPanoramaData_reads_rows (parseFloat : option string -> R)
    (header : string) (rows : list (string * string * string)) :
  trim header <> EmptyString ->
  ~ In newline (list_ascii_of_string header) ->
  Forall (fun '(id, lat, lng) =>
            Forall (fun field =>
                      ~ In ","%char (list_ascii_of_string field)
                      /\ ~ In newline (list_ascii_of_string field))
                   [id; lat; lng]) rows ->
  loadPanoramaData parseFloat (Some (csvText header rows))
  = imap (fun index '(id, lat, lng) =>
            PanoramaLocation.Make
              id
              ("UCF Location " ++ ToString (Z.of_nat index + 1))%string
              ("/ucf_panos/" ++ id ++ ".jpg")%string
              (parseFloat (Some lat), parseFloat (Some lng)))
         rows.
Proof.
  intros Hheader Hnl Hrows.
  assert (Hlines : List.filter nonBlank (split newline (csvRows rows))
                   = map csvRow rows).
  { induction Hrows as [| [[id lat] lng] rows Hrow _ IH]; [reflexivity |].
    cbn [csvRows map]. rewrite nonBlank_lines_app, IH.
    inversion Hrow as [| ? ? [Hi1 Hi2] Hrow']; subst.
    inversion Hrow' as [| ? ? [Hl1 Hl2] Hrow'']; subst.
    inversion Hrow'' as [| ? ? [Hg1 Hg2] _]; subst.
    rewrite split_none.
    - cbn [List.filter csvRow append]. rewrite nonBlank_comma.
      reflexivity.
    - cbn [csvRow append].
      rewrite !in_string_sep.
      intros [H | [H | [H | [H | H]]]]; try contradiction;
        discriminate H. }
  unfold loadPanoramaData, csvText. cbv zeta.
  rewrite nonBlank_lines_app, Hlines, (split_none newline header Hnl).
  cbn [List.filter]. unfold nonBlank at 1.
  destruct (String.eqb_spec (trim header) "") as [H | _]; [contradiction |].
  cbn [negb app].
  rewrite imap_fmap. apply imap_ext. intros index [[id lat] lng] Hlook.
  rewrite Forall_lookup in Hrows. specialize (Hrows _ _ Hlook).
  cbn beta iota in Hrows.
  inversion Hrows as [| ? ? [Hi _] Hrow']; subst.
  inversion Hrow' as [| ? ? [Hl _] Hrow'']; subst.
  inversion Hrow'' as [| ? ? [Hg _] _]; subst.
  cbn [compose csvRow append].
  rewrite !split_app, !split_none by assumption.
  reflexivity.
Qed.

Lemma loadPanoramaData_reads_rows_witness :
  loadPanoramaData (fun _ => 0%R) (Some sampleCsv)
  = [PanoramaLocation.Make "J52ZXa_jSmPwCOFvOcce0Q" "UCF Location 1"
       "/ucf_panos/J52ZXa_jSmPwCOFvOcce0Q.jpg" (0, 0)%R].
Proof.
  apply (loadPanoramaData_reads_rows (fun _ => 0%R) "pano_id,lat,lng"
           [("J52ZXa_jSmPwCOFvOcce0Q", "28.599083861386735",
             "-81.20530840140005")]%string).
  - vm_compute. discriminate.
  - vm_compute. intuition discriminate.
  - repeat constructor; vm_compute; intuition discriminate.
Defined.

(** X19. Blank lines do not count.  A line that [trim] empties (here [blank],
    which may itself hold newlines) is dropped wherever it stands, between
    two parts of the file, at its end or at its start: the loader returns the
    same locations, with the same numbering, as for the file without it.  A
    final newline is the case of an empty [blank] at the end. *)
Theorem loadPanoramaData_ignores_blank_lines
    (parseFloat : option string -> R) (blank a b : string) :
  trim blank = EmptyString ->
  loadPanoramaData parseFloat
      (Some (a ++ String newline (blank ++ String newline b))%string)
    = loadPanoramaData parseFloat (Some (a ++ String newline b)%string)
  /\ loadPanoramaData parseFloat (Some (a ++ String newline blank)%string)
     = loadPanoramaData parseFloat (Some a)
  /\ loadPanoramaData parseFloat (Some (blank ++ String newline a)%string)
     = loadPanoramaData parseFloat (Some a).
Proof.
  intros Hblank. pose proof (nonBlank_lines_blank blank Hblank) as Hb.
  split; [| split]; apply loadPanoramaData_lines;
    rewrite !nonBlank_lines_app, ?Hb, ?app_nil_r; reflexivity.
Qed.

Lemma loadPanoramaData_ignores_blank_lines_witness :
  let blank := String " " (String "013" EmptyString) in
  let a := "pano_id,lat,lng"%string in
  let b := "x,1,2"%string in
  loadPanoramaData (fun _ => 0%R)
      (Some (a ++ String newline (blank ++ String newline b))%string)
    = loadPanoramaData (fun _ => 0%R) (Some (a ++ String newline b)%string)
  /\ loadPanoramaData (fun _ => 0%R) (Some (a ++ String newline blank)%string)
     = loadPanoramaData (fun _ => 0%R) (Some a)
  /\ loadPanoramaData (fun _ => 0%R) (Some (blank ++ String newline a)%string)
     = loadPanoramaData (fun _ => 0%R) (Some a).
Proof.
  intros blank a b.
  apply (loadPanoramaData_ignores_blank_lines (fun _ => 0%R) blank a b).
  reflexivity.
Defined.
